(** * Huffman coding script [Watts_Portfolio_Week8_V6.py]: a shallow embedding

    The Python functions [tally], [build_nodes], [huffman_encode],
    [create_huffman_string], [decode], [size_of_original] and [size_of_coded]
    are embedded as Rocq functions; the properties of the specification are
    then settled on these definitions. *)

From Stdlib Require Import String Ascii.
From Stdlib Require Import List NArith Arith Lia Bool.
From Stdlib Require Import Permutation.
Import ListNotations.
Local Open Scope nat_scope.

(** ** Python values used by the script *)

Module Py.

(** A Python 3 [str] is a sequence of Unicode code points; iterating over it
    yields one-character strings.  A character is its code point. *)
Definition char : Type := N.
Definition str : Type := list char.

(** String literals of the script and of the examples. *)
Definition lit (s : string) : str := map N_of_ascii (list_ascii_of_string s).

(** [a == b] on strings. *)
Fixpoint str_eqb (a b : str) : bool :=
  match a, b with
  | [], [] => true
  | x :: a', y :: b' => N.eqb x y && str_eqb a' b'
  | _, _ => false
  end.

(** Exceptions that the operations used by the script can raise. *)
Inductive exn : Type := KeyError | IndexError.

Inductive outcome (A : Type) : Type :=
| Returned (v : A)
| Raised (e : exn).
Arguments Returned {A} v.
Arguments Raised {A} e.

Definition bind {A B} (o : outcome A) (k : A -> outcome B) : outcome B :=
  match o with
  | Returned v => k v
  | Raised e => Raised e
  end.

(** A [dict] keeps its keys in insertion order, and [items()] iterates in
    that order: an association list whose keys are pairwise distinct. *)
Definition dict (V : Type) : Type := list (char * V).

Fixpoint dict_get {V} (d : dict V) (k : char) : option V :=
  match d with
  | [] => None
  | (k', v) :: d' => if N.eqb k' k then Some v else dict_get d' k
  end.

(** [d[k] = v]: an existing key keeps its position, a new key goes last. *)
Fixpoint dict_set {V} (d : dict V) (k : char) (v : V) : dict V :=
  match d with
  | [] => [(k, v)]
  | (k', v') :: d' =>
      if N.eqb k' k then (k', v) :: d' else (k', v') :: dict_set d' k v
  end.

(** [d.update(other)] *)
Definition dict_update {V} (d other : dict V) : dict V :=
  fold_left (fun acc kv => dict_set acc (fst kv) (snd kv)) other d.

(** [d[k]] as an expression: raises [KeyError] on a missing key. *)
Definition dict_getitem {V} (d : dict V) (k : char) : outcome V :=
  match dict_get d k with
  | Some v => Returned v
  | None => Raised KeyError
  end.

(** [sorted(l, key=itemgetter(1), reverse=True)].  Python's sort is stable,
    also with [reverse=True]: items with equal keys keep their relative
    order.  The stable descending arrangement of a list is unique, and
    insertion from the right computes it. *)
Fixpoint insert_desc {A} (x : A * nat) (l : list (A * nat)) : list (A * nat) :=
  match l with
  | [] => [x]
  | y :: l' => if snd x <? snd y then y :: insert_desc x l' else x :: l
  end.

Definition sorted_desc {A} (l : list (A * nat)) : list (A * nat) :=
  fold_right insert_desc [] l.

End Py.

Import Py.

Notation "x <- o ;; k" := (bind o (fun x => k))
  (at level 61, o at next level, right associativity).

(** ** The script *)

(** A tree is either a one-character [str] (a leaf, recognised by
    [type(node) is str]) or a [NodeTree] object with two children. *)
Inductive node : Type :=
| Leaf (c : char)
| NodeTree (left right : node).

(** An entry of the working list of [build_nodes]: [(tree, frequency)]. *)
Definition item : Type := (node * nat)%type.

(** [tally]: the loop body updates [phrase_dict] for one letter. *)
Definition tally_letter (phrase_dict : dict nat) (letter : char) : dict nat :=
  match dict_get phrase_dict letter with
  | Some n => dict_set phrase_dict letter (n + 1)
  | None => dict_set phrase_dict letter 1
  end.

Definition tally_dict (phrase : str) : dict nat :=
  fold_left tally_letter phrase [].

Definition tally (phrase : str) : list (char * nat) :=
  sorted_desc (tally_dict phrase).

(** The list returned by [tally] is handed to [build_nodes] as it is: a
    character of the tally list is a leaf of the tree. *)
Definition leaf_items (tally_list : list (char * nat)) : list item :=
  map (fun p => (Leaf (fst p), snd p)) tally_list.

(** One iteration of the [while] loop of [build_nodes], entered with
    [len(tally_list) > 1]: [rev] exposes [tally_list[-1]], [tally_list[-2]]
    and [tally_list[:-2]]. *)
Definition merge_step (tally_list : list item) : list item :=
  match rev tally_list with
  | (char_1, freq_1) :: (char_2, freq_2) :: rest =>
      sorted_desc (rev rest ++ [(NodeTree char_1 char_2, freq_1 + freq_2)])
  | _ => tally_list
  end.

(** The [while] loop of [build_nodes], for at most [fuel] iterations. *)
Fixpoint build_loop (fuel : nat) (tally_list : list item) : list item :=
  match fuel with
  | 0 => tally_list
  | S fuel' =>
      if 1 <? length tally_list
      then build_loop fuel' (merge_step tally_list)
      else tally_list
  end.

(** Every iteration shortens the list by one, so [len(tally_list)]
    iterations are enough (see [build_nodes_unfold]). *)
Definition build_nodes (tally_list : list item) : list item :=
  build_loop (length tally_list) tally_list.

(** The literals ['0'] and ['1']. *)
Definition zero : str := lit "0".
Definition one : str := lit "1".

(** [huffman_encode(node, left, bin_string)]; the parameter [left] is
    overwritten before it is read and is left out. *)
Fixpoint huffman_encode (n : node) (bin_string : str) : dict str :=
  match n with
  | Leaf c => [(c, bin_string)]
  | NodeTree lft rgt =>
      let huffman_dict := [] in
      let huffman_dict :=
        dict_update huffman_dict (huffman_encode lft (bin_string ++ zero)) in
      dict_update huffman_dict (huffman_encode rgt (bin_string ++ one))
  end.

(** [create_huffman_string(node, left, bin_string)], the script's encoder:
    it receives the tree only, never the phrase. *)
Fixpoint create_huffman_string (n : node) (bin_string : str) : str :=
  match n with
  | Leaf _ => bin_string
  | NodeTree lft rgt =>
      let bin_string :=
        bin_string ++ create_huffman_string lft (bin_string ++ zero) in
      bin_string ++ create_huffman_string rgt (bin_string ++ one)
  end.

(** The inner [for] loop of [decode]: the first entry, in dictionary order,
    whose code equals [temp_huff]. *)
Fixpoint find_code (huffman_dict : dict str) (temp_huff : str) : option char :=
  match huffman_dict with
  | [] => None
  | (h_char, h_code) :: d' =>
      if str_eqb h_code temp_huff then Some h_char else find_code d' temp_huff
  end.

(** The outer loop of [decode] on the state [(text, temp_huff)]. *)
Fixpoint decode_loop (huffman_dict : dict str) (text temp_huff : str)
    (huffman_string : str) : str * str :=
  match huffman_string with
  | [] => (text, temp_huff)
  | c :: rest =>
      let temp_huff := temp_huff ++ [c] in
      match find_code huffman_dict temp_huff with
      | Some h_char => decode_loop huffman_dict (text ++ [h_char]) [] rest
      | None => decode_loop huffman_dict text temp_huff rest
      end
  end.

Definition decode (huffman_dict : dict str) (huffman_string : str) : str :=
  fst (decode_loop huffman_dict [] [] huffman_string).

(** What [temp_huff] holds when [decode] returns (the value is dropped). *)
Definition decode_pending (huffman_dict : dict str) (huffman_string : str) : str :=
  snd (decode_loop huffman_dict [] [] huffman_string).

Definition size_of_original (phrase : str) : nat := length phrase * 8.

(** [size_of_coded]: the loop adds [len(n_tree[char]) * frequency] for the
    entries of [c_tally] from left to right; the first key that [n_tree]
    lacks raises [KeyError]. *)
Fixpoint size_of_coded (c_tally : list (char * nat)) (n_tree : dict str)
  : outcome nat :=
  match c_tally with
  | [] => Returned 0
  | (c, frequency) :: c_tally' =>
      code <- dict_getitem n_tree c ;;
      rest <- size_of_coded c_tally' n_tree ;;
      Returned (length code * frequency + rest)
  end.

(** ** The script's top level, as a function of the phrase *)

(** [node_tree[0][0]] *)
Definition root (node_tree : list item) : outcome node :=
  match node_tree with
  | [] => Raised IndexError
  | (t, _) :: _ => Returned t
  end.

Definition node_tree (phrase : str) : list item :=
  build_nodes (leaf_items (tally phrase)).

Definition huffman_code (phrase : str) : outcome (dict str) :=
  t <- root (node_tree phrase) ;; Returned (huffman_encode t []).

Definition encoded_string (phrase : str) : outcome str :=
  t <- root (node_tree phrase) ;; Returned (create_huffman_string t []).

Definition new_size (phrase : str) : outcome nat :=
  code <- huffman_code phrase ;; size_of_coded (tally phrase) code.

Definition decoded (phrase : str) : outcome str :=
  code <- huffman_code phrase ;;
  bits <- encoded_string phrase ;;
  Returned (decode code bits).

(** ** The encoder of the specification, for comparison *)

(** Section 4.4 of the specification, in its words: for each symbol in
    sequence order, look up its code in the table and append it; a symbol
    without an entry is a lookup failure.  This is not a function of the
    script; it is what [create_huffman_string] is compared with. *)
Fixpoint spec_encode (symbols : str) (table : dict str) : outcome str :=
  match symbols with
  | [] => Returned []
  | c :: rest =>
      code <- dict_getitem table c ;;
      payload <- spec_encode rest table ;;
      Returned (code ++ payload)
  end.

(** ** Definitions used in the statements and proofs *)

(** The entry that an iteration of [build_nodes] appends for the last entry
    [x1] and the one before it, [x2]. *)
Definition merged (x2 x1 : item) : item :=
  (NodeTree (fst x1) (fst x2), snd x1 + snd x2).

(** The code table of "aaabbc", as [huffman_encode] builds it. *)
Definition table_aaabbc : dict str :=
  [(99%N, lit "00"); (98%N, lit "01"); (97%N, lit "1")].

(** The symbols at the leaves, left to right. *)
Fixpoint leaves (t : node) : list char :=
  match t with
  | Leaf c => [c]
  | NodeTree lft rgt => leaves lft ++ leaves rgt
  end.

(** The leaves with the path that leads to each, below the path [pre]. *)
Fixpoint paths (t : node) (pre : str) : list (char * str) :=
  match t with
  | Leaf c => [(c, pre)]
  | NodeTree lft rgt => paths lft (pre ++ zero) ++ paths rgt (pre ++ one)
  end.

(** [q.startswith(p)] *)
Definition is_prefix (p q : str) : Prop := exists s, q = p ++ s.

(** Lists of frequencies in ascending and in descending order. *)
Fixpoint asc (l : list nat) : Prop :=
  match l with
  | [] => True
  | x :: l' => (forall y, In y l' -> x <= y) /\ asc l'
  end.

Fixpoint desc (l : list nat) : Prop :=
  match l with
  | [] => True
  | x :: l' => (forall y, In y l' -> y <= x) /\ desc l'
  end.

(** Insertion into an ascending list of frequencies. *)
Fixpoint insert_asc (x : nat) (l : list nat) : list nat :=
  match l with
  | [] => [x]
  | y :: l' => if x <=? y then x :: l else y :: insert_asc x l'
  end.

(** The sum of the frequencies of all merged nodes when the two smallest
    frequencies of an ascending list are merged again and again. *)
Fixpoint hcost (fuel : nat) (ws : list nat) : nat :=
  match fuel, ws with
  | S fuel', a :: b :: rest => a + b + hcost fuel' (insert_asc (a + b) rest)
  | _, _ => 0
  end.

(** Total length when the i-th frequency is given a code of the i-th length. *)
Fixpoint dot (ws ds : list nat) : nat :=
  match ws, ds with
  | w :: ws', d :: ds' => w * d + dot ws' ds'
  | _, _ => 0
  end.

(** The Kraft sum of the code lengths [ds], scaled by [2 ^ D]. *)
Definition kraft_sum (D : nat) (ds : list nat) : nat :=
  list_sum (map (fun d => 2 ^ (D - d)) ds).

(** Insertion into a descending list of code lengths. *)
Fixpoint insert_dsc (x : nat) (l : list nat) : list nat :=
  match l with
  | [] => [x]
  | y :: l' => if y <=? x then x :: l else y :: insert_dsc x l'
  end.

(** The total frequency of the leaves of a tree. *)
Fixpoint weight (f : char -> nat) (t : node) : nat :=
  match t with
  | Leaf c => f c
  | NodeTree lft rgt => weight f lft + weight f rgt
  end.

(** The weighted path length of a tree: every inner node adds its weight. *)
Fixpoint cost (f : char -> nat) (t : node) : nat :=
  match t with
  | Leaf _ => 0
  | NodeTree lft rgt => cost f lft + cost f rgt + weight f lft + weight f rgt
  end.

(** Every entry of the working list carries the weight of its tree. *)
Definition consistent (f : char -> nat) (l : list item) : Prop :=
  forall t w, In (t, w) l -> w = weight f t.

(** The costs of the trees of the working list, added up. *)
Definition forest_cost (f : char -> nat) (l : list item) : nat :=
  list_sum (map (fun it => cost f (fst it)) l).

(** The leaves of the trees of the working list. *)
Definition forest_leaves (l : list item) : list char :=
  flat_map (fun it => leaves (fst it)) l.

(** The length of the code of [c] in a table, 0 without an entry. *)
Definition code_len (table : dict str) (c : char) : nat :=
  match dict_get table c with
  | Some code => length code
  | None => 0
  end.

(** A table that [decode] can use: one entry for each key, no code a prefix
    of the code of another key, no empty code. *)
Definition decodable (table : dict str) : Prop :=
  NoDup (map fst table) /\
  (forall c1 p1 c2 p2,
      In (c1, p1) table -> In (c2, p2) table -> c1 <> c2 ->
      ~ is_prefix p1 p2) /\
  (forall c p, In (c, p) table -> p <> []).

(** ** The rest of the [NodeTree] class *)

(** [sep.join(parts)] *)
Fixpoint join (sep : str) (parts : list str) : str :=
  match parts with
  | [] => []
  | x :: parts' =>
      match parts' with
      | [] => x
      | _ :: _ => x ++ sep ++ join sep parts'
      end
  end.

(** [NodeTree.__str__], [f"{self.left}_{self.right}"]: a child that is a
    [NodeTree] is formatted by the same method, a child that is a character
    is itself. *)
Fixpoint node_str (t : node) : str :=
  match t with
  | Leaf c => [c]
  | NodeTree lft rgt => node_str lft ++ lit "_" ++ node_str rgt
  end.

(** ** Measures of trees and tables *)

(** The number of [NodeTree] objects of a tree. *)
Fixpoint inner_nodes (t : node) : nat :=
  match t with
  | Leaf _ => 0
  | NodeTree lft rgt => S (inner_nodes lft + inner_nodes rgt)
  end.

(** The length of the longest path from the root to a leaf. *)
Fixpoint height (t : node) : nat :=
  match t with
  | Leaf _ => 0
  | NodeTree lft rgt => S (Nat.max (height lft) (height rgt))
  end.

(** The tree with the symbol of every leaf replaced by one fixed character. *)
Fixpoint erase (t : node) : node :=
  match t with
  | Leaf _ => Leaf 0%N
  | NodeTree lft rgt => NodeTree (erase lft) (erase rgt)
  end.

(** A string of the characters ['0'] and ['1'] only. *)
Definition binary (p : str) : Prop := Forall (fun b => b = 48%N \/ b = 49%N) p.

(** The code lengths of a table, entry by entry. *)
Definition code_lengths (table : dict str) : list nat :=
  map (fun e => length (snd e)) table.

(** Code lengths in descending order (insertion sort). *)
Definition sort_dsc (ds : list nat) : list nat := fold_right insert_dsc [] ds.

(** The table without the entries whose code is the empty string. *)
Definition nonempty_codes (table : dict str) : dict str :=
  filter (fun e => match snd e with [] => false | _ :: _ => true end) table.

(** Whether [n_tree[c]] succeeds for every key [c] of [c_tally]. *)
Definition all_keys_present (c_tally : list (char * nat)) (n_tree : dict str)
  : bool :=
  forallb (fun e => match dict_get n_tree (fst e) with
                    | Some _ => true
                    | None => false
                    end) c_tally.

(** The symbols of a phrase in the order of their first occurrence. *)
Definition first_occurrences (phrase : str) : list char :=
  rev (nodup N.eq_dec (rev phrase)).

(** ** Facts about the Python primitives *)

Section DictFacts.
Context {V : Type}.
Implicit Types (d : dict V) (k : char) (v : V).

Lemma dict_get_None d k : dict_get d k = None <-> ~ In k (map fst d).
Proof.
  induction d as [|[k' v'] d IH]; simpl.
  - tauto.
  - destruct (N.eqb_spec k' k) as [->|Hne].
    + split; [discriminate | intros H; exfalso; apply H; now left].
    + rewrite IH. split; [intros H [E|I]; [congruence | tauto] | tauto].
Qed.

Lemma dict_get_In d k v : dict_get d k = Some v -> In (k, v) d.
Proof.
  induction d as [|[k' v'] d IH]; simpl; [discriminate|].
  destruct (N.eqb_spec k' k) as [->|Hne].
  - intros [= ->]. now left.
  - intros H. right. now apply IH.
Qed.

Lemma In_dict_get d k v :
  NoDup (map fst d) -> In (k, v) d -> dict_get d k = Some v.
Proof.
  induction d as [|[k' v'] d IH]; simpl; [tauto|].
  intros Hnd [E|I].
  - injection E as -> ->. now rewrite N.eqb_refl.
  - inversion Hnd as [|? ? Hnot Hnd']; subst.
    destruct (N.eqb_spec k' k) as [->|Hne].
    + exfalso. apply Hnot. now apply (in_map fst) in I.
    + now apply IH.
Qed.

Lemma dict_get_set d k v k' :
  dict_get (dict_set d k v) k' = if N.eqb k k' then Some v else dict_get d k'.
Proof.
  induction d as [|[k0 v0] d IH]; simpl.
  - reflexivity.
  - destruct (N.eqb_spec k0 k) as [->|Hne]; simpl.
    + destruct (N.eqb_spec k k'); reflexivity.
    + rewrite IH. destruct (N.eqb_spec k0 k') as [->|Hne'].
      * destruct (N.eqb_spec k k'); [congruence | reflexivity].
      * reflexivity.
Qed.

Lemma keys_dict_set_new d k v :
  dict_get d k = None -> dict_set d k v = d ++ [(k, v)].
Proof.
  induction d as [|[k0 v0] d IH]; simpl; [reflexivity|].
  destruct (N.eqb_spec k0 k); [discriminate|].
  intros H. now rewrite IH.
Qed.

Lemma keys_dict_set_old d k v v0 :
  dict_get d k = Some v0 -> map fst (dict_set d k v) = map fst d.
Proof.
  induction d as [|[k1 v1] d IH]; simpl; [discriminate|].
  destruct (N.eqb_spec k1 k); simpl; [reflexivity|].
  intros H. now rewrite IH.
Qed.

End DictFacts.

Lemma sum_dict_set_old (d : dict nat) k n v :
  dict_get d k = Some n ->
  list_sum (map snd (dict_set d k v)) + n = list_sum (map snd d) + v.
Proof.
  induction d as [|[k1 v1] d IH]; simpl; [discriminate|].
  destruct (N.eqb_spec k1 k); simpl.
  - intros [= ->]. lia.
  - intros H. specialize (IH H). lia.
Qed.

Lemma list_sum_perm (l l' : list nat) :
  Permutation l l' -> list_sum l = list_sum l'.
Proof. induction 1; simpl; lia. Qed.

Section SortFacts.
Context {A : Type}.
Implicit Types (x : A * nat) (l : list (A * nat)).

Lemma insert_desc_perm x l : Permutation (insert_desc x l) (x :: l).
Proof.
  induction l as [|y l IH]; simpl.
  - reflexivity.
  - destruct (snd x <? snd y).
    + rewrite IH. apply perm_swap.
    + reflexivity.
Qed.

Lemma sorted_desc_perm l : Permutation (sorted_desc l) l.
Proof.
  induction l as [|x l IH]; simpl.
  - reflexivity.
  - rewrite insert_desc_perm. now constructor.
Qed.

End SortFacts.

(** ** The frequency tallier *)

Lemma tally_dict_snoc phrase c :
  tally_dict (phrase ++ [c]) = tally_letter (tally_dict phrase) c.
Proof. unfold tally_dict. now rewrite fold_left_app. Qed.

Lemma tally_dict_get phrase k :
  dict_get (tally_dict phrase) k =
  match count_occ N.eq_dec phrase k with
  | 0 => None
  | S n => Some (S n)
  end.
Proof.
  induction phrase as [|c phrase IH] using rev_ind.
  - reflexivity.
  - rewrite tally_dict_snoc, count_occ_app. simpl.
    assert (dict_get (tally_letter (tally_dict phrase) c) k =
            if N.eqb c k
            then Some (S (count_occ N.eq_dec phrase k))
            else dict_get (tally_dict phrase) k) as ->.
    { unfold tally_letter.
      destruct (dict_get (tally_dict phrase) c) as [n|] eqn:Hc;
        rewrite dict_get_set; destruct (N.eqb_spec c k) as [->|Hne];
        try reflexivity; rewrite Hc in IH;
        destruct (count_occ N.eq_dec phrase k); try discriminate.
      - injection IH as ->. f_equal. lia.
      - reflexivity. }
    destruct (N.eqb_spec c k) as [->|Hne].
    + destruct (N.eq_dec k k) as [_|]; [|congruence].
      now rewrite Nat.add_1_r.
    + destruct (N.eq_dec c k) as [|_]; [congruence|].
      now rewrite IH, Nat.add_0_r.
Qed.

Lemma tally_dict_keys_NoDup phrase : NoDup (map fst (tally_dict phrase)).
Proof.
  induction phrase as [|c phrase IH] using rev_ind.
  - constructor.
  - rewrite tally_dict_snoc. unfold tally_letter.
    destruct (dict_get (tally_dict phrase) c) as [n|] eqn:Hc.
    + now rewrite (keys_dict_set_old _ _ _ _ Hc).
    + rewrite (keys_dict_set_new _ _ _ Hc), map_app. simpl.
      apply NoDup_app_remove_l with (l := []). simpl.
      apply Permutation_NoDup with (l := c :: map fst (tally_dict phrase)).
      * apply Permutation_cons_append.
      * constructor; [now apply dict_get_None | exact IH].
Qed.

Lemma tally_dict_sum phrase :
  list_sum (map snd (tally_dict phrase)) = length phrase.
Proof.
  induction phrase as [|c phrase IH] using rev_ind.
  - reflexivity.
  - rewrite tally_dict_snoc, length_app. simpl. unfold tally_letter.
    destruct (dict_get (tally_dict phrase) c) as [n|] eqn:Hc.
    + pose proof (sum_dict_set_old _ _ _ (n + 1) Hc). lia.
    + rewrite (keys_dict_set_new _ _ _ Hc), map_app, list_sum_app. simpl. lia.
Qed.

Lemma tally_perm phrase : Permutation (tally phrase) (tally_dict phrase).
Proof. apply sorted_desc_perm. Qed.

Lemma tally_keys_NoDup phrase : NoDup (map fst (tally phrase)).
Proof.
  apply Permutation_NoDup with (l := map fst (tally_dict phrase)).
  - apply Permutation_map. symmetry. apply tally_perm.
  - apply tally_dict_keys_NoDup.
Qed.

Lemma tally_In_count phrase c n :
  In (c, n) (tally phrase) -> n = count_occ N.eq_dec phrase c /\ 0 < n.
Proof.
  intros H. apply (Permutation_in _ (tally_perm phrase)) in H.
  apply In_dict_get in H; [|apply tally_dict_keys_NoDup].
  rewrite tally_dict_get in H.
  destruct (count_occ N.eq_dec phrase c); [discriminate|].
  injection H as <-. split; [reflexivity | lia].
Qed.

Lemma tally_keys_In phrase c : In c phrase <-> In c (map fst (tally phrase)).
Proof.
  rewrite (count_occ_In N.eq_dec).
  assert (In c (map fst (tally phrase)) <-> In c (map fst (tally_dict phrase)))
    as ->.
  { split; apply Permutation_in, Permutation_map;
      [|symmetry]; apply tally_perm. }
  pose proof (tally_dict_get phrase c) as Hg.
  pose proof (dict_get_None (tally_dict phrase) c) as Hn.
  destruct (count_occ N.eq_dec phrase c).
  - split; [lia | tauto].
  - split; [|lia]. intros _.
    destruct (in_dec N.eq_dec c (map fst (tally_dict phrase))) as [I|NI];
      [exact I|]. apply Hn in NI. congruence.
Qed.

Lemma tally_sum phrase : list_sum (map snd (tally phrase)) = length phrase.
Proof.
  rewrite <- tally_dict_sum. apply list_sum_perm, Permutation_map, tally_perm.
Qed.

(** C7.  For every input sequence, [tally] returns a table whose keys are
    pairwise distinct and are exactly the symbols of the input, every count
    is the positive number of occurrences of its symbol, the counts add up
    to the length of the input, and the empty input gives the empty table. *)
Theorem tally_frequency_table (phrase : str) :
  NoDup (map fst (tally phrase)) /\
  (forall c, In c phrase <-> In c (map fst (tally phrase))) /\
  (forall c n, In (c, n) (tally phrase) ->
               n = count_occ N.eq_dec phrase c /\ 0 < n) /\
  list_sum (map snd (tally phrase)) = length phrase /\
  tally [] = [].
Proof.
  split; [apply tally_keys_NoDup|].
  split; [apply tally_keys_In|].
  split; [apply tally_In_count|].
  split; [apply tally_sum | reflexivity].
Qed.

(** ** The tree builder *)

Lemma two_last {A} (l : list A) :
  1 < length l -> exists front x2 x1, l = front ++ [x2; x1].
Proof.
  intros H.
  destruct l as [|x1 l] using rev_ind; [simpl in H; lia|]. clear IHl.
  destruct l as [|x2 l] using rev_ind; [simpl in H; lia|]. clear IHl.
  exists l, x2, x1. now rewrite <- app_assoc.
Qed.

Lemma merge_step_snoc2 front x2 x1 :
  merge_step (front ++ [x2; x1]) = sorted_desc (front ++ [merged x2 x1]).
Proof.
  unfold merge_step, merged. rewrite rev_app_distr. simpl.
  destruct x1 as [char_1 freq_1], x2 as [char_2 freq_2]. simpl.
  now rewrite rev_involutive.
Qed.

Lemma merge_step_perm front x2 x1 :
  Permutation (merge_step (front ++ [x2; x1])) (merged x2 x1 :: front).
Proof.
  rewrite merge_step_snoc2, sorted_desc_perm.
  symmetry. apply Permutation_cons_append.
Qed.

Lemma merge_step_length l : 1 < length l -> S (length (merge_step l)) = length l.
Proof.
  intros H. destruct (two_last l H) as (front & x2 & x1 & ->).
  rewrite (Permutation_length (merge_step_perm front x2 x1)), length_app.
  simpl. lia.
Qed.

Lemma merge_step_sum l :
  list_sum (map snd (merge_step l)) = list_sum (map snd l).
Proof.
  destruct (Nat.ltb_spec 1 (length l)) as [H|H].
  - destruct (two_last l H) as (front & x2 & x1 & ->).
    rewrite (list_sum_perm _ _ (Permutation_map snd (merge_step_perm front x2 x1))).
    rewrite map_app, list_sum_app. unfold merged, item in *. simpl. lia.
  - unfold merge_step.
    destruct l as [|[t w] [|b l]]; try reflexivity. simpl in H. lia.
Qed.

(** The loop equation of [build_nodes]: the fuel never runs out. *)
Lemma build_nodes_unfold l :
  build_nodes l = if 1 <? length l then build_nodes (merge_step l) else l.
Proof.
  unfold build_nodes.
  destruct (Nat.ltb_spec 1 (length l)) as [H|H].
  - pose proof (merge_step_length l H) as Hl.
    destruct (length l) as [|n] eqn:E; [lia|].
    injection Hl as Hl. rewrite Hl. simpl. rewrite E.
    destruct (Nat.ltb_spec 1 (S n)); [reflexivity | lia].
  - destruct (length l) as [|[|n]] eqn:E; simpl; try lia; try reflexivity.
    now rewrite E.
Qed.

Lemma build_loop_enough fuel l :
  length l <= S fuel -> build_loop fuel l = build_nodes l.
Proof.
  revert l. induction fuel as [|fuel IH]; intros l H.
  - rewrite build_nodes_unfold.
    destruct (Nat.ltb_spec 1 (length l)); [lia | reflexivity].
  - rewrite build_nodes_unfold. simpl.
    destruct (Nat.ltb_spec 1 (length l)) as [H1|H1]; [|reflexivity].
    apply IH. pose proof (merge_step_length l H1). lia.
Qed.

Lemma build_nodes_single l :
  l <> [] -> exists t, build_nodes l = [(t, list_sum (map snd l))].
Proof.
  remember (length l) as n eqn:Hn. revert l Hn.
  induction n as [n IH] using lt_wf_ind. intros l Hn Hne.
  rewrite build_nodes_unfold.
  destruct (Nat.ltb_spec 1 (length l)) as [H|H].
  - pose proof (merge_step_length l H) as Hl.
    rewrite <- (merge_step_sum l).
    apply (IH (length (merge_step l))); [lia | reflexivity |].
    intros E. rewrite E in Hl. simpl in Hl. lia.
  - destruct l as [|[t w] [|b l]]; [congruence | | simpl in H; lia].
    exists t. simpl. now rewrite Nat.add_0_r.
Qed.

(** C10.  For every non-empty frequency list, [build_nodes] returns a list
    of exactly one (tree, frequency) item whose frequency is the sum of all
    input frequencies; every merge step puts into the list a node that
    carries the sum of the frequencies of its two children, and leaves the
    sum of the list unchanged. *)
Theorem build_nodes_single_root_sum (tally_list : list item) :
  tally_list <> [] ->
  (exists t, build_nodes tally_list = [(t, list_sum (map snd tally_list))]) /\
  (forall front x2 x1,
      In (NodeTree (fst x1) (fst x2), snd x1 + snd x2)
         (merge_step (front ++ [x2; x1])) /\
      list_sum (map snd (merge_step (front ++ [x2; x1]))) =
      list_sum (map snd (front ++ [x2; x1]))).
Proof.
  intros Hne. split; [now apply build_nodes_single|].
  intros front x2 x1. split; [|apply merge_step_sum].
  apply (Permutation_in _ (Permutation_sym (merge_step_perm front x2 x1))).
  now left.
Qed.

Lemma build_nodes_single_root_sum_witness :
  (exists t, build_nodes [(Leaf 97%N, 3); (Leaf 98%N, 2); (Leaf 99%N, 1)]
             = [(t, 6)]).
Proof.
  apply (build_nodes_single_root_sum
           [(Leaf 97%N, 3); (Leaf 98%N, 2); (Leaf 99%N, 1)]).
  discriminate.
Defined.

(** ** The pipeline on concrete phrases *)

(** C1.  On the phrase "ab" the script's pipeline does not round-trip: the
    table is {b: 0, a: 1}, [create_huffman_string] returns 001, and [decode]
    turns it into "bba". *)
Theorem round_trip_fails_on_ab :
  huffman_code (lit "ab") = Returned [(98%N, lit "0"); (97%N, lit "1")] /\
  encoded_string (lit "ab") = Returned (lit "001") /\
  decoded (lit "ab") = Returned (lit "bba") /\
  lit "bba" <> lit "ab".
Proof. repeat split; try reflexivity. discriminate. Qed.

(** C2.  On the phrase "abc" the script's encoder does not return the
    concatenation of the codes of the symbols: the table is
    {a: 0, c: 10, b: 11}, the concatenation is 01110, and
    [create_huffman_string] returns 001010010101. *)
Theorem encoder_is_not_code_concatenation :
  exists table,
    huffman_code (lit "abc") = Returned table /\
    table = [(97%N, lit "0"); (99%N, lit "10"); (98%N, lit "11")] /\
    spec_encode (lit "abc") table = Returned (lit "01110") /\
    encoded_string (lit "abc") = Returned (lit "001010010101") /\
    lit "001010010101" <> lit "01110".
Proof.
  eexists. split; [reflexivity|]. repeat split; try reflexivity. discriminate.
Qed.

(** C3, as stated, fails: the tally of the empty phrase is the empty table,
    and [build_nodes] returns a value on it, the empty list. *)
Lemma empty_table_builds_empty_list :
  tally [] = [] /\ build_nodes (leaf_items (tally [])) = [].
Proof. split; reflexivity. Qed.

(** C3, amended.  On the empty frequency list [build_nodes] returns the
    empty list and raises nothing; it is the script's next step,
    [node_tree[0][0]], that raises [IndexError], so that no code table and
    no encoded string are produced. *)
Theorem build_nodes_empty :
  build_nodes [] = [] /\
  root (build_nodes []) = Raised IndexError /\
  huffman_code [] = Raised IndexError /\
  encoded_string [] = Raised IndexError.
Proof. repeat split; reflexivity. Qed.

(** C9.  On "aaabbc" the tally is {a: 3, b: 2, c: 1}, the code lengths are
    1, 2 and 2, and [size_of_coded] is 9; but the string returned by
    [create_huffman_string] has 15 characters and decodes to "cccacccaa".
    ([decode] does return "aaabbc" on the 9-bit concatenation of the codes
    of the phrase, which the script never builds.) *)
Theorem scenario_aaabbc :
  tally (lit "aaabbc") = [(97%N, 3); (98%N, 2); (99%N, 1)] /\
  (exists table code_a code_b code_c,
      huffman_code (lit "aaabbc") = Returned table /\
      dict_get table 97%N = Some code_a /\ length code_a = 1 /\
      dict_get table 98%N = Some code_b /\ length code_b = 2 /\
      dict_get table 99%N = Some code_c /\ length code_c = 2 /\
      spec_encode (lit "aaabbc") table = Returned (lit "111010100") /\
      decode table (lit "111010100") = lit "aaabbc") /\
  new_size (lit "aaabbc") = Returned 9 /\
  encoded_string (lit "aaabbc") = Returned (lit "000000100000011") /\
  length (lit "000000100000011") = 15 /\
  decoded (lit "aaabbc") = Returned (lit "cccacccaa") /\
  lit "cccacccaa" <> lit "aaabbc".
Proof.
  split; [reflexivity|]. split.
  - do 4 eexists. repeat split; reflexivity.
  - repeat split; try reflexivity. discriminate.
Qed.

(** ** One repeated symbol *)

Lemma tally_dict_repeat c n : tally_dict (repeat c (S n)) = [(c, S n)].
Proof.
  induction n as [|n IH].
  - reflexivity.
  - change (repeat c (S (S n))) with (c :: repeat c (S n)).
    rewrite repeat_cons, tally_dict_snoc, IH.
    unfold tally_letter. simpl. rewrite N.eqb_refl. simpl.
    rewrite ?N.eqb_refl. now rewrite Nat.add_1_r.
Qed.

Lemma node_tree_repeat c n : node_tree (repeat c (S n)) = [(Leaf c, S n)].
Proof. unfold node_tree, tally. now rewrite tally_dict_repeat. Qed.

(** C5.  For a phrase made of one symbol repeated, the script gives the
    symbol the empty code, the encoded string is empty, and decoding returns
    the empty string, not the phrase. *)
Theorem single_symbol_gets_empty_code (c : char) (n : nat) :
  huffman_code (repeat c (S n)) = Returned [(c, [])] /\
  encoded_string (repeat c (S n)) = Returned [] /\
  decoded (repeat c (S n)) = Returned [] /\
  repeat c (S n) <> [].
Proof.
  unfold decoded, huffman_code, encoded_string.
  rewrite node_tree_repeat. simpl. repeat split. discriminate.
Qed.

(** C6.  The code table built for the phrase "zz" is {z: ''}: the code of
    its only symbol is the empty string. *)
Theorem code_table_with_empty_code :
  exists table,
    huffman_code (lit "zz") = Returned table /\
    table = [(122%N, [])] /\
    dict_get table 122%N = Some [].
Proof. eexists. repeat split. Qed.

(** ** The decoder *)

Lemma decode_loop_app d text temp s1 s2 :
  decode_loop d text temp (s1 ++ s2) =
  decode_loop d (fst (decode_loop d text temp s1))
                (snd (decode_loop d text temp s1)) s2.
Proof.
  revert text temp. induction s1 as [|c s1 IH]; intros text temp; simpl.
  - reflexivity.
  - destruct (find_code d (temp ++ [c])); apply IH.
Qed.

Lemma decode_snoc d s c :
  decode_loop d [] [] (s ++ [c]) =
  match find_code d (decode_pending d s ++ [c]) with
  | Some h_char => (decode d s ++ [h_char], [])
  | None => (decode d s, decode_pending d s ++ [c])
  end.
Proof.
  rewrite decode_loop_app. unfold decode, decode_pending. simpl.
  now destruct (find_code d (snd (decode_loop d [] [] s) ++ [c])).
Qed.

(** C4, as stated, fails: with the table of "aaabbc", the stream 10 ends in
    the middle of a code (0 is pending, a proper prefix of 00 and 01) and
    the stream 12 ends with a pending prefix that matches no entry; [decode]
    returns "a" on both. *)
Lemma decode_returns_on_truncated_stream :
  huffman_code (lit "aaabbc") = Returned table_aaabbc /\
  decode table_aaabbc (lit "10") = lit "a" /\
  decode_pending table_aaabbc (lit "10") = lit "0" /\
  decode table_aaabbc (lit "12") = lit "a" /\
  decode_pending table_aaabbc (lit "12") = lit "2".
Proof. repeat split; reflexivity. Qed.

(** C4, amended.  For every code table and every bitstring, [decode]
    returns a symbol sequence and never fails: the bitstring splits into a
    part that is consumed and the accumulated prefix that is pending when
    the loop ends, and the value returned is the decoding of the consumed
    part; the pending prefix is dropped. *)
Theorem decode_drops_pending_prefix (huffman_dict : dict str) (bits : str) :
  exists consumed,
    bits = consumed ++ decode_pending huffman_dict bits /\
    decode huffman_dict bits = decode huffman_dict consumed /\
    decode_pending huffman_dict consumed = [].
Proof.
  induction bits as [|c s IH] using rev_ind.
  - exists []. repeat split.
  - destruct IH as (consumed & Hs & Hd & Hp).
    pose proof (decode_snoc huffman_dict s c) as E.
    unfold decode at 1, decode_pending at 1.
    destruct (find_code huffman_dict (decode_pending huffman_dict s ++ [c])).
    + exists (s ++ [c]). unfold decode, decode_pending. rewrite E. simpl.
      now rewrite app_nil_r.
    + exists consumed. rewrite E. simpl. repeat split; try assumption.
      rewrite app_assoc. now rewrite <- Hs.
Qed.

(** ** The code table generator *)

Lemma NoDup_app_disjoint {A} (l1 l2 : list A) (a : A) :
  NoDup (l1 ++ l2) -> In a l1 -> In a l2 -> False.
Proof.
  induction l1 as [|x l1 IH]; simpl; [tauto|].
  intros Hnd [->|I1] I2; inversion Hnd as [|? ? Hx Hnd']; subst.
  - apply Hx, in_or_app. now right.
  - now apply IH.
Qed.

Lemma dict_update_app {V} (d other : dict V) :
  NoDup (map fst other) ->
  (forall k, In k (map fst other) -> ~ In k (map fst d)) ->
  dict_update d other = d ++ other.
Proof.
  unfold dict_update. revert d.
  induction other as [|[k v] other IH]; intros d Hnd Hdis; simpl.
  - now rewrite app_nil_r.
  - inversion Hnd as [|? ? Hk Hnd']; subst.
    rewrite keys_dict_set_new by (apply dict_get_None, Hdis; now left).
    rewrite IH; [now rewrite <- app_assoc | assumption |].
    intros k' Hk'. rewrite map_app, in_app_iff. simpl.
    intros [I|[E|[]]].
    + apply (Hdis k'); [now right | exact I].
    + subst. contradiction.
Qed.

Lemma paths_keys t pre : map fst (paths t pre) = leaves t.
Proof.
  revert pre. induction t as [c|l IHl r IHr]; intros pre; simpl.
  - reflexivity.
  - now rewrite map_app, IHl, IHr.
Qed.

Lemma huffman_encode_paths t pre :
  NoDup (leaves t) -> huffman_encode t pre = paths t pre.
Proof.
  revert pre. induction t as [c|l IHl r IHr]; intros pre Hnd; simpl.
  - reflexivity.
  - simpl in Hnd.
    pose proof (NoDup_app_remove_r _ _ Hnd) as Hl.
    pose proof (NoDup_app_remove_l _ _ Hnd) as Hr.
    rewrite IHl, IHr by assumption.
    assert (dict_update [] (paths l (pre ++ zero)) = paths l (pre ++ zero))
      as ->.
    { rewrite dict_update_app; [reflexivity | now rewrite paths_keys | tauto]. }
    apply dict_update_app; rewrite !paths_keys; [assumption|].
    intros k Hk Hk'. exact (NoDup_app_disjoint _ _ k Hnd Hk' Hk).
Qed.

Lemma paths_extend t pre c p :
  In (c, p) (paths t pre) -> is_prefix pre p.
Proof.
  revert pre. induction t as [c'|l IHl r IHr]; intros pre; simpl.
  - intros [[= _ <-]|[]]. exists []. now rewrite app_nil_r.
  - rewrite in_app_iff. intros [H|H];
      [apply IHl in H | apply IHr in H]; destruct H as [s ->];
      eexists; rewrite <- app_assoc; reflexivity.
Qed.

Lemma paths_longer lft rgt pre c p :
  In (c, p) (paths (NodeTree lft rgt) pre) -> length pre < length p.
Proof.
  simpl. rewrite in_app_iff.
  intros [H|H]; apply paths_extend in H; destruct H as [s ->];
    rewrite !length_app; simpl; lia.
Qed.

Lemma paths_prefix_free t pre c1 p1 c2 p2 :
  NoDup (leaves t) ->
  In (c1, p1) (paths t pre) -> In (c2, p2) (paths t pre) ->
  c1 <> c2 -> ~ is_prefix p1 p2.
Proof.
  revert pre. induction t as [c|l IHl r IHr]; intros pre Hnd; simpl.
  - intros [[= <- _]|[]] [[= <- _]|[]]. congruence.
  - simpl in Hnd.
    pose proof (NoDup_app_remove_r _ _ Hnd) as Hl.
    pose proof (NoDup_app_remove_l _ _ Hnd) as Hr.
    rewrite !in_app_iff.
    intros [H1|H1] [H2|H2] Hne; eauto;
      apply paths_extend in H1, H2;
      destruct H1 as [s1 ->], H2 as [s2 ->]; intros [s E];
      rewrite <- !app_assoc in E; apply app_inv_head in E; discriminate.
Qed.

(** ** Sorted lists of frequencies *)

Lemma insert_asc_perm x l : Permutation (insert_asc x l) (x :: l).
Proof.
  induction l as [|y l IH]; simpl.
  - reflexivity.
  - destruct (x <=? y); [reflexivity|]. rewrite IH. apply perm_swap.
Qed.

Lemma insert_asc_asc x l : asc l -> asc (insert_asc x l).
Proof.
  induction l as [|y l IH]; simpl.
  - tauto.
  - intros [Hy Hl]. destruct (Nat.leb_spec x y) as [H|H]; simpl.
    + repeat split; try assumption.
      intros z [<-|Hz]; [assumption|]. specialize (Hy z Hz). lia.
    + split; [|now apply IH].
      intros z Hz. apply (Permutation_in _ (insert_asc_perm x l)) in Hz.
      destruct Hz as [<-|Hz]; [lia | now apply Hy].
Qed.

Lemma asc_snoc l x : asc l -> (forall y, In y l -> y <= x) -> asc (l ++ [x]).
Proof.
  induction l as [|z l IH]; simpl.
  - tauto.
  - intros [Hz Hl] Hx. split.
    + intros y Hy. apply in_app_or in Hy. destruct Hy as [Hy|[<-|[]]].
      * now apply Hz.
      * apply Hx. now left.
    + apply IH; [assumption|]. intros y Hy. apply Hx. now right.
Qed.

Lemma desc_rev l : desc l -> asc (rev l).
Proof.
  induction l as [|x l IH]; simpl.
  - tauto.
  - intros [Hx Hl]. apply asc_snoc; [now apply IH|].
    intros y Hy. apply Hx. now apply in_rev.
Qed.

Lemma desc_app_l l1 l2 : desc (l1 ++ l2) -> desc l1.
Proof.
  induction l1 as [|x l1 IH]; simpl; [tauto|].
  intros [Hx Hl]. split; [|now apply IH].
  intros y Hy. apply Hx, in_or_app. now left.
Qed.

Lemma asc_unique l1 l2 : asc l1 -> asc l2 -> Permutation l1 l2 -> l1 = l2.
Proof.
  revert l2. induction l1 as [|x l1 IH]; intros l2 H1 H2 HP.
  - apply Permutation_nil in HP. now subst.
  - destruct l2 as [|y l2].
    + apply Permutation_sym, Permutation_nil in HP. discriminate.
    + destruct H1 as [Hx H1], H2 as [Hy H2].
      assert (x = y) as ->.
      { assert (In x (y :: l2)) as Ix
          by (apply (Permutation_in _ HP); now left).
        assert (In y (x :: l1)) as Iy
          by (apply (Permutation_in _ (Permutation_sym HP)); now left).
        destruct Ix as [->|Ix]; [reflexivity|].
        destruct Iy as [->|Iy]; [reflexivity|].
        specialize (Hx y Iy). specialize (Hy x Ix). lia. }
      f_equal. apply IH; try assumption.
      now apply Permutation_cons_inv in HP.
Qed.

Section SortedDesc.
Context {A : Type}.
Implicit Types (x : A * nat) (l : list (A * nat)).

Lemma insert_desc_desc x l :
  desc (map snd l) -> desc (map snd (insert_desc x l)).
Proof.
  induction l as [|y l IH]; simpl.
  - tauto.
  - intros [Hy Hl]. destruct (Nat.ltb_spec (snd x) (snd y)) as [H|H]; simpl.
    + split; [|now apply IH].
      intros z Hz.
      apply (Permutation_in _ (Permutation_map snd (insert_desc_perm x l)))
        in Hz.
      destruct Hz as [<-|Hz]; [lia | now apply Hy].
    + repeat split; try assumption.
      intros z [<-|Hz]; [assumption|]. specialize (Hy z Hz). lia.
Qed.

Lemma sorted_desc_desc l : desc (map snd (sorted_desc l)).
Proof.
  induction l as [|x l IH]; simpl; [exact I|]. now apply insert_desc_desc.
Qed.

End SortedDesc.

Lemma tally_desc phrase : desc (map snd (tally phrase)).
Proof. apply sorted_desc_desc. Qed.

Lemma leaf_items_snd tl : map snd (leaf_items tl) = map snd tl.
Proof. unfold leaf_items. rewrite map_map. reflexivity. Qed.

(** The frequencies after a merge step, smallest first: the two smallest
    are replaced by their sum. *)
Lemma merge_step_weights front x2 x1 :
  desc (map snd (front ++ [x2; x1])) ->
  rev (map snd (merge_step (front ++ [x2; x1]))) =
  insert_asc (snd x1 + snd x2) (rev (map snd front)).
Proof.
  intros Hd. apply asc_unique.
  - rewrite merge_step_snoc2. apply desc_rev, sorted_desc_desc.
  - apply insert_asc_asc, desc_rev.
    rewrite map_app in Hd. now apply desc_app_l in Hd.
  - rewrite <- Permutation_rev, insert_asc_perm, <- Permutation_rev.
    now rewrite (Permutation_map snd (merge_step_perm front x2 x1)).
Qed.

(** ** The cost of repeated merging, on frequencies alone *)

Lemma insert_dsc_perm x l : Permutation (insert_dsc x l) (x :: l).
Proof.
  induction l as [|y l IH]; simpl.
  - reflexivity.
  - destruct (y <=? x); [reflexivity|]. rewrite IH. apply perm_swap.
Qed.

Lemma insert_dsc_desc x l : desc l -> desc (insert_dsc x l).
Proof.
  induction l as [|y l IH]; simpl.
  - tauto.
  - intros [Hy Hl]. destruct (Nat.leb_spec y x) as [H|H]; simpl.
    + repeat split; try assumption.
      intros z [<-|Hz]; [assumption|]. specialize (Hy z Hz). lia.
    + split; [|now apply IH].
      intros z Hz. apply (Permutation_in _ (insert_dsc_perm x l)) in Hz.
      destruct Hz as [<-|Hz]; [lia | now apply Hy].
Qed.

Lemma dot_app a1 a2 b1 b2 :
  length a1 = length b1 ->
  dot (a1 ++ a2) (b1 ++ b2) = dot a1 b1 + dot a2 b2.
Proof.
  revert b1. induction a1 as [|x a1 IH]; intros [|y b1]; simpl;
    try discriminate.
  - reflexivity.
  - intros [= H]. rewrite (IH _ H). lia.
Qed.

Lemma split_at {A} (l : list A) n :
  n < length l -> exists q1 x q2, l = q1 ++ x :: q2 /\ length q1 = n.
Proof.
  revert l. induction n as [|n IH]; intros [|y l] H; simpl in H; try lia.
  - exists [], y, l. now split.
  - destruct (IH l) as (q1 & x & q2 & -> & Hq); [lia|].
    exists (y :: q1), x, q2. simpl. now rewrite Hq.
Qed.

(** Pairing ascending frequencies with descending code lengths gives the
    smallest total among all arrangements of the code lengths. *)
Lemma dot_rearrange ws ds ds2 :
  asc ws -> desc ds -> Permutation ds ds2 -> length ws = length ds ->
  dot ws ds <= dot ws ds2.
Proof.
  revert ds ds2. induction ws as [|w ws IH]; intros ds ds2 Ha Hd HP Hlen.
  - simpl. lia.
  - destruct ds as [|d ds]; [discriminate|].
    destruct Ha as [Hw Ha], Hd as [Hdmax Hd]. injection Hlen as Hlen.
    assert (In d ds2) as Hin by (apply (Permutation_in _ HP); now left).
    apply in_split in Hin. destruct Hin as (p1 & p2 & ->).
    pose proof (Permutation_cons_app_inv _ _ HP) as HP'.
    destruct p1 as [|e p1]; simpl.
    + specialize (IH ds p2 Ha Hd HP' Hlen). lia.
    + assert (length p1 < length ws) as Hlt.
      { rewrite Hlen, (Permutation_length HP'). simpl.
        rewrite length_app. lia. }
      destruct (split_at ws (length p1) Hlt) as (q1 & wj & q2 & -> & Hq).
      assert (Permutation ds (p1 ++ e :: p2)) as HP''.
      { rewrite HP'. simpl. apply Permutation_middle. }
      specialize (IH ds (p1 ++ e :: p2) Ha Hd HP'' Hlen).
      rewrite dot_app in IH |- * by assumption. simpl in IH |- *.
      assert (w <= wj) by (apply Hw, in_or_app; right; now left).
      assert (e <= d).
      { apply Hdmax, (Permutation_in _ (Permutation_sym HP')). now left. }
      assert (w * d + wj * e <= w * e + wj * d) by nia.
      lia.
Qed.

Lemma insert_asc_split x l :
  exists r1 r2, l = r1 ++ r2 /\ insert_asc x l = r1 ++ x :: r2.
Proof.
  induction l as [|y l (r1 & r2 & Hl & Hi)]; simpl.
  - exists [], []. now split.
  - destruct (x <=? y).
    + exists [], (y :: l). now split.
    + exists (y :: r1), r2. simpl. now rewrite Hi, <- Hl.
Qed.

(** Merging a frequency and a code length into sorted lists costs no more
    than pairing the two with each other. *)
Lemma dot_insert rest drest x y :
  asc rest -> desc drest -> length rest = length drest ->
  dot (insert_asc x rest) (insert_dsc y drest) <= x * y + dot rest drest.
Proof.
  intros Ha Hd Hlen.
  destruct (insert_asc_split x rest) as (r1 & r2 & Hr & Hi).
  set (d1 := firstn (length r1) drest).
  set (d2 := skipn (length r1) drest).
  assert (drest = d1 ++ d2) as Hdr by (symmetry; apply firstn_skipn).
  assert (length r1 = length d1) as Hl1.
  { unfold d1. rewrite length_firstn, <- Hlen, Hr, length_app. lia. }
  assert (dot (insert_asc x rest) (insert_dsc y drest) <=
          dot (insert_asc x rest) (d1 ++ y :: d2)) as Hle.
  { apply dot_rearrange.
    - now apply insert_asc_asc.
    - now apply insert_dsc_desc.
    - rewrite insert_dsc_perm, Hdr. apply Permutation_middle.
    - rewrite (Permutation_length (insert_asc_perm x rest)),
        (Permutation_length (insert_dsc_perm y drest)). simpl. now f_equal. }
  assert (dot rest drest = dot r1 d1 + dot r2 d2) as Hdot.
  { rewrite Hr, Hdr. now apply dot_app. }
  rewrite Hi in Hle |- *. rewrite dot_app in Hle by assumption.
  simpl in Hle. lia.
Qed.

Lemma kraft_sum_perm D ds ds' :
  Permutation ds ds' -> kraft_sum D ds = kraft_sum D ds'.
Proof. intros H. apply list_sum_perm, Permutation_map, H. Qed.

Lemma kraft_sum_cons D d ds :
  kraft_sum D (d :: ds) = 2 ^ (D - d) + kraft_sum D ds.
Proof. reflexivity. Qed.

Lemma pow2_pos n : 0 < 2 ^ n.
Proof. pose proof (Nat.pow_nonzero 2 n). lia. Qed.

Lemma pow2_pred D L : 1 <= L <= D -> 2 ^ (D - (L - 1)) = 2 * 2 ^ (D - L).
Proof.
  intros H. replace (D - (L - 1)) with (S (D - L)) by lia.
  apply Nat.pow_succ_r'.
Qed.

(** Below the length [L], every term of the Kraft sum is a multiple of
    [2 ^ (D - (L - 1))]. *)
Lemma kraft_sum_scale D L ds :
  1 <= L <= D -> (forall d, In d ds -> d < L) ->
  kraft_sum D ds = 2 ^ (D - (L - 1)) * kraft_sum (L - 1) ds.
Proof.
  intros HL. unfold kraft_sum. induction ds as [|d ds IH]; intros Hd; simpl.
  - lia.
  - rewrite IH by (intros; apply Hd; now right).
    assert (d < L) by (apply Hd; now left).
    replace (D - d) with ((D - (L - 1)) + (L - 1 - d)) by lia.
    rewrite Nat.pow_add_r. lia.
Qed.

(** A single longest code can be shortened by one bit: the Kraft sum is
    odd in units of [2 ^ (D - L)], the bound is even. *)
Lemma kraft_shorten D L ds :
  1 <= L <= D -> (forall d, In d ds -> d < L) ->
  kraft_sum D (L :: ds) <= 2 ^ D ->
  kraft_sum D (L - 1 :: ds) <= 2 ^ D.
Proof.
  intros HL Hd. rewrite !kraft_sum_cons.
  rewrite (kraft_sum_scale D L ds HL Hd), (pow2_pred D L HL).
  replace (2 ^ D) with (2 * 2 ^ (D - L) * 2 ^ (L - 1)).
  2:{ rewrite <- (pow2_pred D L HL), <- Nat.pow_add_r. f_equal. lia. }
  pose proof (pow2_pos (D - L)) as Hu.
  generalize dependent (2 ^ (D - L)). intros u Hu.
  generalize (kraft_sum (L - 1) ds) (2 ^ (L - 1)). intros m p H.
  destruct (Nat.le_gt_cases p m) as [Hpm|Hpm].
  - assert (2 * u * p <= 2 * u * m) by (now apply Nat.mul_le_mono_l). lia.
  - assert (2 * u * (m + 1) <= 2 * u * p) by (apply Nat.mul_le_mono_l; lia).
    lia.
Qed.

(** Repeated merging of the two smallest frequencies costs at most the
    total length of any assignment of code lengths that satisfies Kraft's
    inequality. *)
Lemma hcost_le_dot D m :
  forall fuel ws ds,
    list_sum ds + length ds <= m ->
    length ws = length ds -> asc ws -> desc ds ->
    (forall d, In d ds -> d <= D) -> kraft_sum D ds <= 2 ^ D ->
    hcost fuel ws <= dot ws ds.
Proof.
  induction m as [|m IH]; intros fuel ws ds Hm Hlen Ha Hd HD HK.
  - destruct ds; simpl in Hm; [|lia].
    destruct ws; [|discriminate]. destruct fuel; simpl; lia.
  - destruct fuel as [|fuel]; [simpl; lia|].
    destruct ws as [|a [|b rest]]; try (simpl; lia).
    destruct ds as [|da [|db drest]]; try discriminate.
    injection Hlen as Hlen.
    destruct Ha as [Ha1 [Ha2 Ha]], Hd as [Hd1 [Hd2 Hd]].
    assert (da <= D) as HdaD by (apply HD; now left).
    assert (db <= da) as Hdba by (apply Hd1; now left).
    pose proof (pow2_pos D) as HposD.
    destruct (Nat.eq_dec db da) as [->|Hne].
    + (* two codes of the greatest length: merge them *)
      assert (1 <= da) as Hda1.
      { destruct da; [|lia]. rewrite !kraft_sum_cons, Nat.sub_0_r in HK.
        lia. }
      assert (hcost fuel (insert_asc (a + b) rest)
              <= dot (insert_asc (a + b) rest) (insert_dsc (da - 1) drest))
        as Hih.
      { apply IH.
        - rewrite (list_sum_perm _ _ (insert_dsc_perm (da - 1) drest)),
            (Permutation_length (insert_dsc_perm (da - 1) drest)).
          simpl in Hm |- *. lia.
        - rewrite (Permutation_length (insert_asc_perm (a + b) rest)),
            (Permutation_length (insert_dsc_perm (da - 1) drest)).
          simpl. now f_equal.
        - now apply insert_asc_asc.
        - now apply insert_dsc_desc.
        - intros d Hin.
          apply (Permutation_in _ (insert_dsc_perm (da - 1) drest)) in Hin.
          destruct Hin as [<-|Hin]; [lia|]. apply HD. now do 2 right.
        - rewrite (kraft_sum_perm D _ _ (insert_dsc_perm (da - 1) drest)).
          rewrite !kraft_sum_cons in HK. rewrite kraft_sum_cons.
          rewrite pow2_pred by lia.
          generalize dependent (2 ^ (D - da)). intros; lia. }
      pose proof (dot_insert rest drest (a + b) (da - 1) Ha Hd Hlen) as Hins.
      assert ((a + b) * (da - 1) + (a + b) = a * da + b * da) as Hmul.
      { destruct da as [|L]; [lia|]. simpl. rewrite Nat.sub_0_r. lia. }
      simpl. lia.
    + (* a single code of the greatest length: shorten it *)
      assert (forall d, In d (db :: drest) -> d < da) as Hlt.
      { intros d [<-|Hin]; [lia|]. specialize (Hd2 d Hin). lia. }
      assert (hcost (S fuel) (a :: b :: rest)
              <= dot (a :: b :: rest) (da - 1 :: db :: drest)) as Hih.
      { apply IH.
        - simpl in Hm |- *. lia.
        - simpl. now do 2 f_equal.
        - repeat split; assumption.
        - repeat split; try assumption.
          intros d Hin. specialize (Hlt d Hin). lia.
        - intros d [<-|Hin]; [lia|]. apply HD. now right.
        - apply kraft_shorten; [lia | assumption | assumption]. }
      simpl in Hih |- *.
      assert (a * (da - 1) <= a * da) by (apply Nat.mul_le_mono_l; lia).
      lia.
Qed.

Lemma dot_repeat ws k : dot ws (repeat k (length ws)) = k * list_sum ws.
Proof. induction ws as [|w ws IH]; simpl; [lia|]. rewrite IH. lia. Qed.

Lemma desc_repeat k n : desc (repeat k n).
Proof.
  induction n as [|n IH]; simpl; [exact I|]. split; [|exact IH].
  intros y Hy. apply repeat_spec in Hy. lia.
Qed.

Lemma kraft_sum_repeat k n : kraft_sum k (repeat k n) = n.
Proof.
  unfold kraft_sum. induction n as [|n IH]; simpl; [reflexivity|].
  rewrite IH, Nat.sub_diag. reflexivity.
Qed.

(** With at most [2 ^ k] frequencies, merging costs at most [k] times
    their sum. *)
Lemma hcost_uniform k fuel ws :
  asc ws -> length ws <= 2 ^ k -> hcost fuel ws <= k * list_sum ws.
Proof.
  intros Ha Hn. rewrite <- dot_repeat.
  apply (hcost_le_dot k (list_sum (repeat k (length ws))
                         + length (repeat k (length ws)))).
  - lia.
  - now rewrite repeat_length.
  - assumption.
  - apply desc_repeat.
  - intros d Hd. apply repeat_spec in Hd. lia.
  - now rewrite kraft_sum_repeat.
Qed.

(** ** Weights and costs of trees *)

Lemma paths_cost f t pre :
  list_sum (map (fun cp => length (snd cp) * f (fst cp)) (paths t pre)) =
  length pre * weight f t + cost f t.
Proof.
  revert pre. induction t as [c|l IHl r IHr]; intros pre; simpl.
  - lia.
  - rewrite map_app, list_sum_app, IHl, IHr, !length_app. simpl. lia.
Qed.

Lemma forest_leaves_perm l l' :
  Permutation l l' -> Permutation (forest_leaves l) (forest_leaves l').
Proof. apply Permutation_flat_map. Qed.

Lemma forest_cost_perm f l l' :
  Permutation l l' -> forest_cost f l = forest_cost f l'.
Proof. intros H. apply list_sum_perm, Permutation_map, H. Qed.

Lemma consistent_merge_step f front x2 x1 :
  consistent f (front ++ [x2; x1]) ->
  consistent f (merge_step (front ++ [x2; x1])).
Proof.
  intros Hc t w Hin.
  apply (Permutation_in _ (merge_step_perm front x2 x1)) in Hin.
  destruct Hin as [E|Hin].
  - unfold merged in E. injection E as <- <-. simpl.
    rewrite <- (Hc (fst x1) (snd x1)), <- (Hc (fst x2) (snd x2));
      [reflexivity | |]; rewrite <- surjective_pairing;
      apply in_or_app; right; simpl; tauto.
  - apply Hc, in_or_app. now left.
Qed.

Lemma forest_cost_merge_step f front x2 x1 :
  consistent f (front ++ [x2; x1]) ->
  forest_cost f (merge_step (front ++ [x2; x1])) =
  forest_cost f (front ++ [x2; x1]) + (snd x1 + snd x2).
Proof.
  intros Hc.
  rewrite (forest_cost_perm f _ _ (merge_step_perm front x2 x1)).
  unfold forest_cost, merged. rewrite map_app, list_sum_app. simpl.
  rewrite (Hc (fst x1) (snd x1)), (Hc (fst x2) (snd x2));
    [unfold item; lia | |]; rewrite <- surjective_pairing;
    apply in_or_app; right; simpl; tauto.
Qed.

Lemma forest_leaves_merge_step front x2 x1 :
  Permutation (forest_leaves (merge_step (front ++ [x2; x1])))
              (forest_leaves (front ++ [x2; x1])).
Proof.
  rewrite (forest_leaves_perm _ _ (merge_step_perm front x2 x1)).
  unfold forest_leaves, merged. rewrite flat_map_app. simpl.
  rewrite app_nil_r.
  rewrite (Permutation_app_comm (flat_map _ front)).
  apply Permutation_app_tail, Permutation_app_comm.
Qed.

(** What [build_nodes] returns on a consistent list that is sorted by
    descending frequency: one tree over the same leaves, whose cost is the
    cost of the trees of the list plus the cost of merging. *)
Lemma build_nodes_cost f n :
  forall l,
    length l = S n -> consistent f l -> desc (map snd l) ->
    exists t,
      build_nodes l = [(t, list_sum (map snd l))] /\
      Permutation (leaves t) (forest_leaves l) /\
      cost f t = forest_cost f l + hcost (S n) (rev (map snd l)).
Proof.
  induction n as [|n IH]; intros l Hlen Hc Hd.
  - destruct l as [|[t w] [|? ?]]; try discriminate.
    exists t. rewrite build_nodes_unfold. simpl.
    rewrite !Nat.add_0_r, app_nil_r. repeat split.
    + apply Permutation_refl.
    + unfold forest_cost. simpl. lia.
  - destruct (two_last l) as (front & x2 & x1 & ->); [lia|].
    pose proof (merge_step_length (front ++ [x2; x1])) as Hl.
    destruct (IH (merge_step (front ++ [x2; x1]))) as (t & Hb & Hp & Hcost).
    + lia.
    + now apply consistent_merge_step.
    + rewrite merge_step_snoc2. apply sorted_desc_desc.
    + exists t. rewrite build_nodes_unfold.
      destruct (Nat.ltb_spec 1 (length (front ++ [x2; x1]))); [|lia].
      rewrite Hb, merge_step_sum. repeat split.
      * rewrite Hp. apply forest_leaves_merge_step.
      * rewrite Hcost, forest_cost_merge_step by assumption.
        rewrite merge_step_weights by assumption.
        rewrite map_app, rev_app_distr. simpl. unfold item. lia.
Qed.

(** ** The size of the coded phrase *)

Lemma size_of_coded_sum tl table :
  (forall c, In c (map fst tl) -> dict_get table c <> None) ->
  size_of_coded tl table =
  Returned (list_sum (map (fun cw => code_len table (fst cw) * snd cw) tl)).
Proof.
  induction tl as [|[c w] tl IH]; intros Hin; simpl.
  - reflexivity.
  - rewrite IH by (intros; apply Hin; now right).
    unfold dict_getitem, code_len.
    destruct (dict_get table c) eqn:E; [reflexivity|].
    exfalso. apply (Hin c); [now left | exact E].
Qed.

Lemma code_len_paths f t :
  NoDup (leaves t) ->
  list_sum (map (fun c => code_len (paths t []) c * f c) (leaves t)) =
  cost f t.
Proof.
  intros Hnd. pose proof (paths_cost f t []) as H. simpl in H.
  rewrite <- H, <- (paths_keys t []), map_map.
  f_equal. apply map_ext_in. intros [c p] Hin. simpl.
  unfold code_len. rewrite (In_dict_get _ c p); [reflexivity| |assumption].
  now rewrite paths_keys.
Qed.

Lemma size_of_coded_tree f tl t :
  NoDup (map fst tl) -> Permutation (leaves t) (map fst tl) ->
  (forall c w, In (c, w) tl -> w = f c) ->
  size_of_coded tl (huffman_encode t []) = Returned (cost f t).
Proof.
  intros Hnd HP Hf.
  assert (NoDup (leaves t)) as Hndt.
  { apply (Permutation_NoDup (Permutation_sym HP) Hnd). }
  rewrite huffman_encode_paths by assumption.
  rewrite size_of_coded_sum.
  - f_equal. rewrite <- (code_len_paths f t Hndt).
    rewrite (list_sum_perm _ _ (Permutation_map _ HP)), map_map.
    f_equal. apply map_ext_in. intros [c w] Hin. simpl.
    now rewrite (Hf c w Hin).
  - intros c Hc. rewrite dict_get_None, paths_keys.
    intros Hn. apply Hn, (Permutation_in _ (Permutation_sym HP)), Hc.
Qed.

Lemma leaf_items_consistent phrase :
  consistent (count_occ N.eq_dec phrase) (leaf_items (tally phrase)).
Proof.
  intros t w Hin. unfold leaf_items in Hin. apply in_map_iff in Hin.
  destruct Hin as ([c w'] & [= <- <-] & Hin). simpl.
  now apply tally_In_count in Hin.
Qed.

Lemma leaf_items_cost f tl : forest_cost f (leaf_items tl) = 0.
Proof.
  unfold forest_cost, leaf_items. rewrite map_map. simpl.
  induction tl; simpl; auto.
Qed.

Lemma leaf_items_leaves tl : forest_leaves (leaf_items tl) = map fst tl.
Proof.
  unfold forest_leaves, leaf_items. induction tl as [|[c w] tl IH]; simpl.
  - reflexivity.
  - now rewrite IH.
Qed.

Lemma tally_nonempty (phrase : str) : phrase <> [] -> tally phrase <> [].
Proof.
  intros Hne E. destruct phrase as [|c s]; [congruence|].
  assert (In c (map fst (tally (c :: s)))) as Hin
    by (apply (proj1 (tally_keys_In (c :: s) c)); now left).
  now rewrite E in Hin.
Qed.

(** The tree of a non-empty phrase: its leaves are the keys of the tally,
    and its cost is the cost of merging the tallied frequencies. *)
Lemma node_tree_spec phrase :
  phrase <> [] ->
  exists t,
    node_tree phrase = [(t, length phrase)] /\
    Permutation (leaves t) (map fst (tally phrase)) /\
    cost (count_occ N.eq_dec phrase) t =
    hcost (length (tally phrase)) (rev (map snd (tally phrase))).
Proof.
  intros Hne. apply tally_nonempty in Hne.
  destruct (length (tally phrase)) as [|n] eqn:Hlen.
  { destruct (tally phrase); [congruence | discriminate]. }
  destruct (build_nodes_cost (count_occ N.eq_dec phrase) n
              (leaf_items (tally phrase))) as (t & Hb & Hp & Hc).
  - unfold leaf_items. now rewrite length_map.
  - apply leaf_items_consistent.
  - rewrite leaf_items_snd. apply tally_desc.
  - exists t. unfold node_tree.
    rewrite Hb, leaf_items_snd, tally_sum. split; [reflexivity|].
    rewrite leaf_items_leaves in Hp. split; [exact Hp|].
    now rewrite Hc, leaf_items_cost, leaf_items_snd.
Qed.

(** The number of distinct symbols of a phrase is the length of its tally. *)
Lemma tally_length phrase :
  length (tally phrase) = length (nodup N.eq_dec phrase).
Proof.
  rewrite <- (length_map fst). apply Permutation_length, NoDup_Permutation.
  - apply tally_keys_NoDup.
  - apply NoDup_nodup.
  - intros c. rewrite nodup_In. symmetry. apply tally_keys_In.
Qed.

Lemma new_size_cost phrase :
  phrase <> [] ->
  new_size phrase =
  Returned (hcost (length (tally phrase)) (rev (map snd (tally phrase)))).
Proof.
  intros Hne. destruct (node_tree_spec phrase Hne) as (t & Ht & Hp & Hc).
  unfold new_size, huffman_code. rewrite Ht. simpl.
  rewrite <- Hc. apply size_of_coded_tree.
  - apply tally_keys_NoDup.
  - exact Hp.
  - intros c w Hin. now apply tally_In_count in Hin.
Qed.

Lemma huffman_code_paths phrase :
  phrase <> [] ->
  exists t,
    node_tree phrase = [(t, length phrase)] /\
    NoDup (leaves t) /\
    Permutation (leaves t) (map fst (tally phrase)) /\
    huffman_code phrase = Returned (paths t []).
Proof.
  intros Hne. destruct (node_tree_spec phrase Hne) as (t & Ht & Hp & _).
  assert (NoDup (leaves t)) as Hnd.
  { apply (Permutation_NoDup (Permutation_sym Hp)), tally_keys_NoDup. }
  exists t. repeat split; try assumption.
  unfold huffman_code. rewrite Ht. simpl.
  now rewrite huffman_encode_paths.
Qed.

(** C8, as stated, fails: the phrase of the 257 characters with code points
    0 to 256, each once, has [size_of_coded] 2058, more than 8 * 257. *)
Lemma size_bound_fails_on_257_symbols :
  exists table,
    length (nodup N.eq_dec (map N.of_nat (seq 0 257))) = 257 /\
    huffman_code (map N.of_nat (seq 0 257)) = Returned table /\
    size_of_coded (tally (map N.of_nat (seq 0 257))) table = Returned 2058 /\
    size_of_original (map N.of_nat (seq 0 257)) = 2056.
Proof. eexists. split; [|split; [|split]]; vm_compute; reflexivity. Qed.

(** C8, amended.  For every phrase with more than one and at most 256
    distinct symbols, [size_of_coded], applied to the tally and the code
    table of the phrase, returns at most [len(phrase) * 8]. *)
Theorem size_of_coded_bound (phrase : str) :
  1 < length (nodup N.eq_dec phrase) <= 256 ->
  exists table bits,
    huffman_code phrase = Returned table /\
    size_of_coded (tally phrase) table = Returned bits /\
    bits <= size_of_original phrase.
Proof.
  intros [Hlo Hhi].
  assert (phrase <> []) as Hne by (intros ->; simpl in Hlo; lia).
  pose proof (new_size_cost phrase Hne) as Hsize.
  destruct (huffman_code_paths phrase Hne) as (t & _ & _ & _ & Hcode).
  unfold new_size in Hsize. rewrite Hcode in Hsize. simpl in Hsize.
  do 2 eexists. split; [exact Hcode|]. split; [exact Hsize|].
  unfold size_of_original.
  rewrite <- (tally_sum phrase), Nat.mul_comm.
  rewrite (list_sum_perm _ _ (Permutation_rev (map snd (tally phrase)))).
  apply hcost_uniform.
  - apply desc_rev, tally_desc.
  - rewrite length_rev, length_map, tally_length. exact Hhi.
Qed.

Lemma size_of_coded_bound_witness :
  exists table bits,
    huffman_code (lit "aaabbc") = Returned table /\
    size_of_coded (tally (lit "aaabbc")) table = Returned bits /\
    bits <= size_of_original (lit "aaabbc").
Proof. apply (size_of_coded_bound (lit "aaabbc")). vm_compute. lia. Defined.

(** ** The code table of a phrase *)

(** The code table of a non-empty phrase has one entry for each symbol of
    the phrase, and no code is a prefix of the code of another symbol; with
    at least two distinct symbols in the phrase, every code is non-empty. *)
Theorem code_table_prefix_free (phrase : str) :
  phrase <> [] ->
  exists table,
    huffman_code phrase = Returned table /\
    NoDup (map fst table) /\
    (forall c, In c (map fst table) <-> In c phrase) /\
    (forall c1 p1 c2 p2,
        In (c1, p1) table -> In (c2, p2) table -> c1 <> c2 ->
        ~ is_prefix p1 p2) /\
    (1 < length (nodup N.eq_dec phrase) ->
     forall c p, In (c, p) table -> p <> []).
Proof.
  intros Hne.
  destruct (huffman_code_paths phrase Hne) as (t & Ht & Hnd & Hp & Hc).
  exists (paths t []). rewrite paths_keys.
  split; [assumption|]. split; [assumption|]. split; [|split].
  - intros c. rewrite (tally_keys_In phrase c). split.
    + apply (Permutation_in _ Hp).
    + apply (Permutation_in _ (Permutation_sym Hp)).
  - intros c1 p1 c2 p2. now apply paths_prefix_free.
  - intros Hlen c p Hin ->.
    rewrite <- tally_length, <- (length_map fst),
      <- (Permutation_length Hp) in Hlen.
    destruct t as [c'|lft rgt]; [simpl in Hlen; lia|].
    apply paths_longer in Hin. simpl in Hin. lia.
Qed.

(** ** Decoding the concatenation of the codes *)

Lemma str_eqb_eq a b : str_eqb a b = true <-> a = b.
Proof.
  revert b. induction a as [|x a IH]; intros [|y b]; simpl;
    try (split; [discriminate | congruence]).
  - tauto.
  - rewrite andb_true_iff, N.eqb_eq, IH. split.
    + intros [-> ->]. reflexivity.
    + intros [= -> ->]. tauto.
Qed.

Lemma find_code_Some table q c :
  find_code table q = Some c -> In (c, q) table.
Proof.
  induction table as [|[h_char h_code] table IH]; simpl; [discriminate|].
  destruct (str_eqb h_code q) eqn:E.
  - apply str_eqb_eq in E. intros [= ->]. left. now subst.
  - intros H. right. now apply IH.
Qed.

Lemma find_code_None table q c :
  find_code table q = None -> ~ In (c, q) table.
Proof.
  induction table as [|[h_char h_code] table IH]; simpl; [tauto|].
  destruct (str_eqb h_code q) eqn:E; [discriminate|].
  intros H [[= -> ->]|Hin].
  - rewrite (proj2 (str_eqb_eq q q) eq_refl) in E. discriminate.
  - now apply IH.
Qed.

Lemma find_code_exact table c p :
  decodable table -> In (c, p) table -> find_code table p = Some c.
Proof.
  intros (_ & Hpf & _) Hin.
  destruct (find_code table p) as [c'|] eqn:E.
  - apply find_code_Some in E.
    destruct (N.eq_dec c' c) as [->|Hne]; [reflexivity|].
    exfalso. apply (Hpf c' p c p E Hin Hne). exists []. now rewrite app_nil_r.
  - exfalso. now apply (find_code_None _ _ c) in E.
Qed.

Lemma find_code_proper_prefix table c q s :
  decodable table -> In (c, q ++ s) table -> s <> [] ->
  find_code table q = None.
Proof.
  intros (Hnd & Hpf & _) Hin Hs.
  destruct (find_code table q) as [c'|] eqn:E; [|reflexivity].
  apply find_code_Some in E. exfalso.
  destruct (N.eq_dec c' c) as [->|Hne].
  - apply (In_dict_get _ _ _ Hnd) in E, Hin. rewrite E in Hin.
    injection Hin as Hq. rewrite <- (app_nil_r q) in Hq at 1.
    apply app_inv_head in Hq. congruence.
  - apply (Hpf c' q c (q ++ s) E Hin Hne). now exists s.
Qed.

Lemma decode_loop_code table c :
  decodable table ->
  forall s q text rest,
    In (c, q ++ s) table -> s <> [] ->
    decode_loop table text q (s ++ rest) =
    decode_loop table (text ++ [c]) [] rest.
Proof.
  intros Hdec. induction s as [|b s IH]; intros q text rest Hin Hs;
    [congruence|]. simpl.
  destruct s as [|b' s].
  - rewrite (find_code_exact table c (q ++ [b]) Hdec Hin). reflexivity.
  - rewrite (find_code_proper_prefix table c (q ++ [b]) (b' :: s) Hdec);
      [|now rewrite <- app_assoc | discriminate].
    apply IH; [now rewrite <- app_assoc | discriminate].
Qed.

Lemma decode_spec_encode table :
  decodable table ->
  forall symbols,
    (forall c, In c symbols -> In c (map fst table)) ->
    exists payload,
      spec_encode symbols table = Returned payload /\
      forall text, decode_loop table text [] payload = (text ++ symbols, []).
Proof.
  intros Hdec. induction symbols as [|c symbols IH]; intros Hin; simpl.
  - exists []. split; [reflexivity|]. intros text. now rewrite app_nil_r.
  - destruct IH as (payload & Hp & Hd); [intros; apply Hin; now right|].
    unfold dict_getitem.
    destruct (dict_get table c) as [code|] eqn:E.
    + rewrite Hp. simpl. exists (code ++ payload). split; [reflexivity|].
      intros text. apply dict_get_In in E.
      rewrite (decode_loop_code table c Hdec code [] text payload E).
      * rewrite Hd, <- app_assoc. reflexivity.
      * destruct Hdec as (_ & _ & Hne). now apply (Hne c).
    + exfalso. apply dict_get_None in E. apply E, Hin. now left.
Qed.

(** With at least two distinct symbols, the script's code table and its
    [decode] do reproduce the phrase from the concatenation of the codes of
    its symbols, the string that [create_huffman_string] fails to build. *)
Theorem decode_code_concatenation (phrase : str) :
  1 < length (nodup N.eq_dec phrase) ->
  exists table payload,
    huffman_code phrase = Returned table /\
    spec_encode phrase table = Returned payload /\
    decode table payload = phrase.
Proof.
  intros Hlen.
  assert (phrase <> []) as Hne by (intros ->; simpl in Hlen; lia).
  destruct (code_table_prefix_free phrase Hne)
    as (table & Hc & Hnd & Hkeys & Hpf & Hnon).
  assert (decodable table) as Hdec.
  { split; [exact Hnd|]. split; [exact Hpf | exact (Hnon Hlen)]. }
  destruct (decode_spec_encode table Hdec phrase) as (payload & Hp & Hd).
  { intros c. apply Hkeys. }
  exists table, payload. repeat split; try assumption.
  unfold decode. now rewrite Hd.
Qed.

(** ** More on the frequency tallier *)

Section StableSort.
Context {A : Type}.
Implicit Types (x : A * nat) (l : list (A * nat)).

Lemma insert_desc_filter x l n :
  filter (fun e => snd e =? n) (insert_desc x l) =
  if snd x =? n
  then x :: filter (fun e => snd e =? n) l
  else filter (fun e => snd e =? n) l.
Proof.
  induction l as [|y l IH]; simpl.
  - reflexivity.
  - destruct (Nat.ltb_spec (snd x) (snd y)) as [H|H]; simpl.
    + rewrite IH.
      destruct (Nat.eqb_spec (snd x) n) as [Hx|Hx];
        destruct (Nat.eqb_spec (snd y) n) as [Hy|Hy]; try reflexivity. lia.
    + reflexivity.
Qed.

Lemma sorted_desc_stable l n :
  filter (fun e => snd e =? n) (sorted_desc l) =
  filter (fun e => snd e =? n) l.
Proof.
  induction l as [|x l IH]; simpl.
  - reflexivity.
  - now rewrite insert_desc_filter, IH.
Qed.

End StableSort.

Lemma tally_dict_get_None phrase c :
  dict_get (tally_dict phrase) c = None <-> ~ In c phrase.
Proof.
  rewrite tally_dict_get, (count_occ_not_In N.eq_dec).
  destruct (count_occ N.eq_dec phrase c); split; congruence.
Qed.

Lemma first_occurrences_snoc phrase c :
  first_occurrences (phrase ++ [c]) =
  if in_dec N.eq_dec c phrase
  then first_occurrences phrase
  else first_occurrences phrase ++ [c].
Proof.
  unfold first_occurrences. rewrite rev_app_distr. simpl.
  destruct (in_dec N.eq_dec c (rev phrase)) as [I|I];
    destruct (in_dec N.eq_dec c phrase) as [I'|I']; try reflexivity.
  - exfalso. apply I'. now apply in_rev.
  - exfalso. apply I. now apply in_rev in I'.
Qed.

Lemma tally_dict_keys phrase :
  map fst (tally_dict phrase) = first_occurrences phrase.
Proof.
  induction phrase as [|c phrase IH] using rev_ind.
  - reflexivity.
  - rewrite tally_dict_snoc, first_occurrences_snoc. unfold tally_letter.
    destruct (dict_get (tally_dict phrase) c) as [n|] eqn:Hc.
    + rewrite (keys_dict_set_old _ _ _ _ Hc), IH.
      destruct (in_dec N.eq_dec c phrase) as [I|I]; [reflexivity|].
      apply tally_dict_get_None in I. congruence.
    + rewrite (keys_dict_set_new _ _ _ Hc), map_app, IH. simpl.
      destruct (in_dec N.eq_dec c phrase) as [I|I]; [|reflexivity].
      apply tally_dict_get_None in Hc. contradiction.
Qed.

Lemma map_fst_filter_snd (f : char -> nat) (d : dict nat) n :
  (forall c v, In (c, v) d -> v = f c) ->
  map fst (filter (fun e => snd e =? n) d) =
  filter (fun c => f c =? n) (map fst d).
Proof.
  induction d as [|[c v] d IH]; intros Hf; simpl.
  - reflexivity.
  - rewrite (Hf c v) by now left.
    destruct (f c =? n); simpl; rewrite IH; try reflexivity;
      intros c' v' H; apply Hf; now right.
Qed.

(** X1.  [tally] returns its entries by descending count, and among the
    symbols with the same count the one that occurs first in the phrase
    comes first. *)
Theorem tally_stable_descending (phrase : str) :
  desc (map snd (tally phrase)) /\
  forall n,
    map fst (filter (fun e => snd e =? n) (tally phrase)) =
    filter (fun c => count_occ N.eq_dec phrase c =? n)
           (first_occurrences phrase).
Proof.
  split; [apply tally_desc|]. intros n.
  unfold tally. rewrite sorted_desc_stable, <- tally_dict_keys.
  apply map_fst_filter_snd. intros c v Hin.
  apply In_dict_get in Hin; [|apply tally_dict_keys_NoDup].
  rewrite tally_dict_get in Hin.
  destruct (count_occ N.eq_dec phrase c); congruence.
Qed.

(** ** More on the size of the coded phrase *)

(** X2.  [size_of_coded] raises [KeyError] exactly when some symbol of the
    tally has no entry in the table; otherwise it returns the sum of code
    length times frequency over the tally. *)
Theorem size_of_coded_key_error (c_tally : list (char * nat))
    (n_tree : dict str) :
  size_of_coded c_tally n_tree =
  if all_keys_present c_tally n_tree
  then Returned
         (list_sum (map (fun e => code_len n_tree (fst e) * snd e) c_tally))
  else Raised KeyError.
Proof.
  induction c_tally as [|[c w] c_tally IH]; simpl.
  - reflexivity.
  - unfold dict_getitem, code_len.
    destruct (dict_get n_tree c) as [code|]; simpl; [|reflexivity].
    rewrite IH. unfold all_keys_present.
    now destruct (forallb _ c_tally).
Qed.

Lemma weighted_dict_set_old (g : char -> nat) (d : dict nat) k n :
  dict_get d k = Some n ->
  list_sum (map (fun e => g (fst e) * snd e) (dict_set d k (n + 1))) =
  list_sum (map (fun e => g (fst e) * snd e) d) + g k.
Proof.
  induction d as [|[k1 v1] d IH]; simpl; [discriminate|].
  destruct (N.eqb_spec k1 k) as [->|Hne]; simpl.
  - intros [= ->]. lia.
  - intros H. rewrite (IH H). lia.
Qed.

Lemma tally_dict_weighted (g : char -> nat) phrase :
  list_sum (map (fun e => g (fst e) * snd e) (tally_dict phrase)) =
  list_sum (map g phrase).
Proof.
  induction phrase as [|c phrase IH] using rev_ind.
  - reflexivity.
  - rewrite tally_dict_snoc, map_app, list_sum_app, <- IH. simpl.
    unfold tally_letter.
    destruct (dict_get (tally_dict phrase) c) as [n|] eqn:Hc.
    + rewrite (weighted_dict_set_old g _ _ _ Hc). lia.
    + rewrite (keys_dict_set_new _ _ _ Hc), map_app, list_sum_app. simpl. lia.
Qed.

Lemma tally_weighted (g : char -> nat) phrase :
  list_sum (map (fun e => g (fst e) * snd e) (tally phrase)) =
  list_sum (map g phrase).
Proof.
  rewrite <- tally_dict_weighted.
  apply list_sum_perm, Permutation_map, tally_perm.
Qed.

(** X3.  When the table has a code for every symbol of the phrase,
    [size_of_coded] on the tally of the phrase returns the sum of the code
    lengths of the symbols of the phrase, occurrence by occurrence: the
    length of the concatenation of their codes. *)
Theorem size_of_coded_is_payload_length (phrase : str) (table : dict str) :
  (forall c, In c phrase -> dict_get table c <> None) ->
  size_of_coded (tally phrase) table =
  Returned (list_sum (map (code_len table) phrase)).
Proof.
  intros Hin. rewrite size_of_coded_sum.
  - now rewrite (tally_weighted (code_len table)).
  - intros c Hc. apply Hin. now apply tally_keys_In.
Qed.

Lemma size_of_coded_is_payload_length_witness :
  size_of_coded (tally (lit "aaabbc")) table_aaabbc =
  Returned (list_sum (map (code_len table_aaabbc) (lit "aaabbc"))).
Proof.
  apply (size_of_coded_is_payload_length (lit "aaabbc") table_aaabbc).
  intros c Hc. simpl in Hc.
  repeat (destruct Hc as [<-|Hc]; [discriminate|]). destruct Hc.
Defined.

(** ** More on the tree builder *)

Lemma desc_app_le l1 l2 a b :
  desc (l1 ++ l2) -> In a l1 -> In b l2 -> b <= a.
Proof.
  induction l1 as [|x l1 IH]; simpl; [tauto|].
  intros [Hx Hd] [->|Ha] Hb.
  - apply Hx, in_or_app. now right.
  - now apply IH.
Qed.

(** X4.  For every non-empty working list, [build_nodes] returns one tree,
    and its leaves are the leaves of the trees of the list: no symbol is
    lost, none is added, none is repeated more often than in the list. *)
Theorem build_nodes_keeps_leaves (tally_list : list item) :
  tally_list <> [] ->
  exists t w,
    build_nodes tally_list = [(t, w)] /\
    Permutation (leaves t) (forest_leaves tally_list).
Proof.
  remember (length tally_list) as n eqn:Hn. revert tally_list Hn.
  induction n as [n IH] using lt_wf_ind. intros l Hn Hne.
  rewrite build_nodes_unfold.
  destruct (Nat.ltb_spec 1 (length l)) as [H|H].
  - pose proof (merge_step_length l H) as Hl.
    destruct (IH (length (merge_step l))) with (tally_list := merge_step l)
      as (t & w & Hb & Hp); [lia | reflexivity | |].
    { intros E. rewrite E in Hl. simpl in Hl. lia. }
    exists t, w. split; [exact Hb|]. rewrite Hp.
    destruct (two_last l H) as (front & x2 & x1 & ->).
    apply forest_leaves_merge_step.
  - destruct l as [|[t w] [|b l]]; [congruence | | simpl in H; lia].
    exists t, w. split; [reflexivity|].
    unfold forest_leaves. simpl. now rewrite app_nil_r.
Qed.

Lemma build_nodes_keeps_leaves_witness :
  exists t w,
    build_nodes [(Leaf 97%N, 3); (Leaf 98%N, 2); (Leaf 99%N, 1)] = [(t, w)] /\
    Permutation (leaves t)
      (forest_leaves [(Leaf 97%N, 3); (Leaf 98%N, 2); (Leaf 99%N, 1)]).
Proof.
  apply (build_nodes_keeps_leaves
           [(Leaf 97%N, 3); (Leaf 98%N, 2); (Leaf 99%N, 1)]).
  discriminate.
Defined.

(** X5.  On a working list sorted by descending frequency, an iteration of
    [build_nodes] merges two entries of least frequency: no other entry has
    a smaller frequency than either of the two.  After the iteration the
    list is the merged entry together with the untouched entries, sorted by
    descending frequency again. *)
Theorem merge_step_takes_two_smallest (front : list item) (x2 x1 : item) :
  desc (map snd (front ++ [x2; x1])) ->
  snd x1 <= snd x2 /\
  (forall e, In e front -> snd x2 <= snd e) /\
  Permutation (merge_step (front ++ [x2; x1]))
              ((NodeTree (fst x1) (fst x2), snd x1 + snd x2) :: front) /\
  desc (map snd (merge_step (front ++ [x2; x1]))).
Proof.
  intros Hd. rewrite map_app in Hd. simpl in Hd. split; [|split; [|split]].
  - apply (desc_app_le (map snd front ++ [snd x2]) [snd x1]).
    + now rewrite <- app_assoc.
    + apply in_or_app. right. now left.
    + now left.
  - intros e He. apply (desc_app_le (map snd front) [snd x2; snd x1]).
    + exact Hd.
    + now apply in_map.
    + now left.
  - apply merge_step_perm.
  - rewrite merge_step_snoc2. apply sorted_desc_desc.
Qed.

Lemma merge_step_takes_two_smallest_witness :
  Permutation
    (merge_step ([(Leaf 97%N, 3)] ++ [(Leaf 98%N, 2); (Leaf 99%N, 1)]))
    ((NodeTree (Leaf 99%N) (Leaf 98%N), 1 + 2) :: [(Leaf 97%N, 3)]).
Proof.
  apply (merge_step_takes_two_smallest
           [(Leaf 97%N, 3)] (Leaf 98%N, 2) (Leaf 99%N, 1)).
  simpl. repeat split; intros y Hy; simpl in Hy; lia.
Defined.

Lemma inner_nodes_leaves t : S (inner_nodes t) = length (leaves t).
Proof.
  induction t as [c|l IHl r IHr]; simpl.
  - reflexivity.
  - rewrite length_app, <- IHl, <- IHr. lia.
Qed.

Lemma tally_keys_nodup phrase :
  Permutation (map fst (tally phrase)) (nodup N.eq_dec phrase).
Proof.
  apply NoDup_Permutation.
  - apply tally_keys_NoDup.
  - apply NoDup_nodup.
  - intros c. rewrite nodup_In. symmetry. apply tally_keys_In.
Qed.

(** X6.  For a non-empty phrase with N distinct symbols the script builds
    one tree whose frequency is the length of the phrase, whose leaves are
    the N distinct symbols, each once, and which has N - 1 [NodeTree]
    objects. *)
Theorem node_tree_of_phrase (phrase : str) :
  phrase <> [] ->
  exists t,
    node_tree phrase = [(t, length phrase)] /\
    Permutation (leaves t) (nodup N.eq_dec phrase) /\
    S (inner_nodes t) = length (nodup N.eq_dec phrase).
Proof.
  intros Hne. destruct (node_tree_spec phrase Hne) as (t & Ht & Hp & _).
  exists t. split; [exact Ht|].
  assert (Permutation (leaves t) (nodup N.eq_dec phrase)) as Hp'.
  { rewrite Hp. apply tally_keys_nodup. }
  split; [exact Hp'|].
  rewrite inner_nodes_leaves. now apply Permutation_length.
Qed.

Lemma node_tree_of_phrase_witness :
  exists t,
    node_tree (lit "aaabbc") = [(t, length (lit "aaabbc"))] /\
    Permutation (leaves t) (nodup N.eq_dec (lit "aaabbc")) /\
    S (inner_nodes t) = length (nodup N.eq_dec (lit "aaabbc")).
Proof. apply (node_tree_of_phrase (lit "aaabbc")). discriminate. Defined.

(** ** More on the code table generator *)

Lemma binary_app p q : binary p -> binary q -> binary (p ++ q).
Proof. unfold binary. intros. now apply Forall_app. Qed.

Lemma paths_shape t pre c p :
  In (c, p) (paths t pre) ->
  exists s, p = pre ++ s /\ binary s /\ length s <= height t.
Proof.
  revert pre. induction t as [c'|l IHl r IHr]; intros pre; simpl.
  - intros [[= _ <-]|[]]. exists []. rewrite app_nil_r.
    split; [reflexivity|]. split; [constructor | simpl; lia].
  - rewrite in_app_iff. intros [H|H];
      [apply IHl in H | apply IHr in H]; destruct H as (s & -> & Hb & Hl).
    + exists (zero ++ s). rewrite <- app_assoc.
      split; [reflexivity|]. split.
      * apply binary_app; [|assumption]. constructor; [now left|constructor].
      * simpl. lia.
    + exists (one ++ s). rewrite <- app_assoc.
      split; [reflexivity|]. split.
      * apply binary_app; [|assumption]. constructor; [now right|constructor].
      * simpl. lia.
Qed.

Lemma height_lt_leaves t : height t < length (leaves t).
Proof.
  induction t as [c|l IHl r IHr]; simpl.
  - lia.
  - rewrite length_app. lia.
Qed.

(** X7.  Every code of the table of a non-empty phrase is a string of the
    characters 0 and 1, and it is shorter than the number of distinct
    symbols of the phrase. *)
Theorem codes_are_short_binary_strings (phrase : str) :
  phrase <> [] ->
  exists table,
    huffman_code phrase = Returned table /\
    forall c p,
      In (c, p) table ->
      binary p /\ length p < length (nodup N.eq_dec phrase).
Proof.
  intros Hne.
  destruct (huffman_code_paths phrase Hne) as (t & _ & _ & Hp & Hc).
  exists (paths t []). split; [exact Hc|]. intros c p Hin.
  apply paths_shape in Hin. destruct Hin as (s & -> & Hb & Hl). simpl.
  split; [exact Hb|].
  pose proof (Permutation_length (tally_keys_nodup phrase)) as H1.
  pose proof (Permutation_length Hp) as H2.
  pose proof (height_lt_leaves t) as H3.
  unfold char, str in *. lia.
Qed.

Lemma codes_are_short_binary_strings_witness :
  exists table,
    huffman_code (lit "aaabbc") = Returned table /\
    forall c p,
      In (c, p) table ->
      binary p /\ length p < length (nodup N.eq_dec (lit "aaabbc")).
Proof.
  apply (codes_are_short_binary_strings (lit "aaabbc")). discriminate.
Defined.

Lemma paths_kraft t pre D :
  length pre + height t <= D ->
  kraft_sum D (code_lengths (paths t pre)) = 2 ^ (D - length pre).
Proof.
  revert pre. unfold code_lengths.
  induction t as [c|l IHl r IHr]; intros pre H; simpl in *.
  - unfold kraft_sum. simpl. lia.
  - unfold kraft_sum in *. rewrite !map_app, list_sum_app.
    rewrite IHl, IHr by (rewrite length_app; simpl; lia).
    rewrite !length_app. simpl.
    replace (D - length pre) with (S (D - (length pre + 1))) by lia.
    rewrite Nat.pow_succ_r'. lia.
Qed.

Lemma paths_deepest t pre :
  exists c p, In (c, p) (paths t pre) /\ length p = length pre + height t.
Proof.
  revert pre. induction t as [c|l IHl r IHr]; intros pre; simpl.
  - exists c, pre. split; [now left | lia].
  - destruct (Nat.le_ge_cases (height l) (height r)) as [H|H].
    + destruct (IHr (pre ++ one)) as (c & p & Hin & Hlen).
      exists c, p. split; [apply in_or_app; now right|].
      rewrite Hlen, length_app. simpl. lia.
    + destruct (IHl (pre ++ zero)) as (c & p & Hin & Hlen).
      exists c, p. split; [apply in_or_app; now left|].
      rewrite Hlen, length_app. simpl. lia.
Qed.

(** X8.  The code table of a non-empty phrase is complete: the lengths of
    its codes satisfy Kraft's inequality with equality, the sum of
    [2 ^ (D - len)] over the codes being [2 ^ D] for every [D] that bounds
    the code lengths. *)
Theorem code_table_is_complete (phrase : str) :
  phrase <> [] ->
  exists table,
    huffman_code phrase = Returned table /\
    forall D,
      (forall c p, In (c, p) table -> length p <= D) ->
      kraft_sum D (code_lengths table) = 2 ^ D.
Proof.
  intros Hne.
  destruct (huffman_code_paths phrase Hne) as (t & _ & _ & _ & Hc).
  exists (paths t []). split; [exact Hc|]. intros D HD.
  rewrite paths_kraft; simpl; [now rewrite Nat.sub_0_r|].
  destruct (paths_deepest t []) as (c & p & Hin & Hlen).
  specialize (HD c p Hin). simpl in Hlen. lia.
Qed.

Lemma code_table_is_complete_witness :
  exists table,
    huffman_code (lit "aaabbc") = Returned table /\
    forall D,
      (forall c p, In (c, p) table -> length p <= D) ->
      kraft_sum D (code_lengths table) = 2 ^ D.
Proof. apply (code_table_is_complete (lit "aaabbc")). discriminate. Defined.

(** ** Optimality of the code table *)

Lemma sort_dsc_perm ds : Permutation (sort_dsc ds) ds.
Proof.
  induction ds as [|d ds IH]; simpl.
  - reflexivity.
  - rewrite insert_dsc_perm. now constructor.
Qed.

Lemma sort_dsc_desc ds : desc (sort_dsc ds).
Proof.
  induction ds as [|d ds IH]; simpl; [exact I|]. now apply insert_dsc_desc.
Qed.

Lemma dot_map {A} (f g : A -> nat) (l : list A) :
  dot (map f l) (map g l) = list_sum (map (fun e => f e * g e) l).
Proof. induction l as [|x l IH]; simpl; [reflexivity|]. now rewrite IH. Qed.

(** Merging the tallied frequencies costs no more than coding every
    occurrence of a symbol [c] with [len c] bits, when the lengths [len]
    satisfy Kraft's inequality on the symbols of the phrase. *)
Lemma hcost_tally_le phrase (len : char -> nat) D :
  (forall c, In c phrase -> len c <= D) ->
  kraft_sum D (map len (nodup N.eq_dec phrase)) <= 2 ^ D ->
  hcost (length (tally phrase)) (rev (map snd (tally phrase))) <=
  list_sum (map len phrase).
Proof.
  intros Hlen HK.
  set (rtl := rev (tally phrase)).
  set (ds2 := map (fun e => len (fst e)) rtl).
  assert (Permutation ds2 (map len (nodup N.eq_dec phrase))) as Hperm.
  { unfold ds2, rtl. rewrite <- (map_map fst len).
    apply Permutation_map. rewrite <- tally_keys_nodup.
    apply Permutation_map. symmetry. apply Permutation_rev. }
  assert (length (rev (map snd (tally phrase))) = length (sort_dsc ds2))
    as Hl.
  { rewrite (Permutation_length (sort_dsc_perm ds2)). unfold ds2, rtl.
    now rewrite !length_rev, !length_map, length_rev. }
  transitivity (dot (rev (map snd (tally phrase))) (sort_dsc ds2)).
  - apply (hcost_le_dot D (list_sum (sort_dsc ds2) + length (sort_dsc ds2))).
    + lia.
    + exact Hl.
    + apply desc_rev, tally_desc.
    + apply sort_dsc_desc.
    + intros d Hd. apply (Permutation_in _ (sort_dsc_perm ds2)) in Hd.
      apply (Permutation_in _ Hperm) in Hd. apply in_map_iff in Hd.
      destruct Hd as (c & <- & Hc). apply Hlen. now apply nodup_In in Hc.
    + now rewrite (kraft_sum_perm D _ _ (sort_dsc_perm ds2)),
        (kraft_sum_perm D _ _ Hperm).
  - transitivity (dot (rev (map snd (tally phrase))) ds2).
    + apply dot_rearrange.
      * apply desc_rev, tally_desc.
      * apply sort_dsc_desc.
      * apply sort_dsc_perm.
      * exact Hl.
    + unfold ds2. rewrite <- map_rev. fold rtl. rewrite dot_map.
      rewrite <- (tally_weighted len phrase).
      apply Nat.eq_le_incl, list_sum_perm.
      unfold rtl. rewrite <- Permutation_rev.
      erewrite map_ext; [reflexivity|]. intros e. apply Nat.mul_comm.
Qed.

(** X9.  The code table of the script is optimal: whatever code lengths
    [len] one assigns to the symbols of a non-empty phrase, as long as they
    satisfy Kraft's inequality (as the lengths of every prefix-free binary
    code do), [size_of_coded] is at most the number of bits that coding
    every symbol occurrence [c] of the phrase with [len c] bits takes. *)
Theorem huffman_code_is_optimal (phrase : str) (len : char -> nat)
    (D : nat) :
  phrase <> [] ->
  (forall c, In c phrase -> len c <= D) ->
  kraft_sum D (map len (nodup N.eq_dec phrase)) <= 2 ^ D ->
  exists table bits,
    huffman_code phrase = Returned table /\
    size_of_coded (tally phrase) table = Returned bits /\
    bits <= list_sum (map len phrase).
Proof.
  intros Hne Hlen HK.
  pose proof (new_size_cost phrase Hne) as Hsize.
  destruct (huffman_code_paths phrase Hne) as (t & _ & _ & _ & Hcode).
  unfold new_size in Hsize. rewrite Hcode in Hsize. simpl in Hsize.
  do 2 eexists. split; [exact Hcode|]. split; [exact Hsize|].
  now apply (hcost_tally_le phrase len D).
Qed.

Lemma huffman_code_is_optimal_witness :
  exists table bits,
    huffman_code (lit "aaabbc") = Returned table /\
    size_of_coded (tally (lit "aaabbc")) table = Returned bits /\
    bits <= list_sum (map (fun _ => 2) (lit "aaabbc")).
Proof.
  apply (huffman_code_is_optimal (lit "aaabbc") (fun _ => 2) 2).
  - discriminate.
  - intros c _. lia.
  - vm_compute. lia.
Defined.

(** Exchanging the values of a function at two symbols changes a sum over
    a phrase by the occurrences of the two symbols only. *)
Lemma list_sum_exchange (g g' : char -> nat) (a b : char) (phrase : str) :
  a <> b ->
  (forall c, c <> a -> c <> b -> g' c = g c) ->
  list_sum (map g' phrase)
  + count_occ N.eq_dec phrase a * g a + count_occ N.eq_dec phrase b * g b =
  list_sum (map g phrase)
  + count_occ N.eq_dec phrase a * g' a + count_occ N.eq_dec phrase b * g' b.
Proof.
  intros Hab Hg. induction phrase as [|c phrase IH]; simpl.
  - reflexivity.
  - destruct (N.eq_dec c a) as [Ha|Ha]; destruct (N.eq_dec c b) as [Hb|Hb];
      try congruence; subst; simpl; try lia.
    rewrite (Hg c Ha Hb). lia.
Qed.

Lemma exchange_gain (lb la cb ca total total' : nat) :
  lb < la -> cb < ca -> total <= total' ->
  total' + ca * la + cb * lb = total + ca * lb + cb * la -> False.
Proof.
  intros Hl Hc Hle Hex.
  assert (0 < (ca - cb) * (la - lb)) as Hpos
    by (apply Nat.mul_pos_pos; lia).
  replace ca with (cb + (ca - cb)) in Hex by lia.
  replace la with (lb + (la - lb)) in Hex by lia.
  rewrite !Nat.mul_add_distr_r, !Nat.mul_add_distr_l in Hex. lia.
Qed.

Lemma code_len_keys (table : dict str) :
  NoDup (map fst table) ->
  map (code_len table) (map fst table) = code_lengths table.
Proof.
  intros Hnd. unfold code_lengths. rewrite map_map.
  apply map_ext_in. intros [c p] Hin. simpl. unfold code_len.
  now rewrite (In_dict_get (V := str) table c p Hnd Hin).
Qed.

Lemma code_len_le_height t c : code_len (paths t []) c <= height t.
Proof.
  unfold code_len. destruct (dict_get (paths t []) c) as [p|] eqn:E; [|lia].
  apply dict_get_In, paths_shape in E. destruct E as (s & -> & _ & H).
  exact H.
Qed.

(** X10.  A symbol that occurs more often than another never gets the
    longer code of the two. *)
Theorem frequent_symbols_get_short_codes (phrase : str) (a b : char) :
  In b phrase ->
  count_occ N.eq_dec phrase b < count_occ N.eq_dec phrase a ->
  exists table,
    huffman_code phrase = Returned table /\
    code_len table a <= code_len table b.
Proof.
  intros Hb Hcount.
  assert (phrase <> []) as Hne by (intros ->; destruct Hb).
  assert (a <> b) as Hab by (intros ->; lia).
  destruct (huffman_code_paths phrase Hne) as (t & _ & Hnd & Hp & Hcode).
  exists (paths t []). split; [exact Hcode|].
  set (table := paths t []).
  destruct (Nat.le_gt_cases (code_len table a) (code_len table b))
    as [Hle|Hgt]; [exact Hle|]. exfalso.
  set (len := code_len table).
  set (len' := fun c => if N.eq_dec c a then len b
                        else if N.eq_dec c b then len a else len c).
  assert (len' a = len b) as Ha'.
  { unfold len'. destruct (N.eq_dec a a); congruence. }
  assert (len' b = len a) as Hb'.
  { unfold len'. destruct (N.eq_dec b a); [congruence|].
    destruct (N.eq_dec b b); congruence. }
  assert (forall c, c <> a -> c <> b -> len' c = len c) as Hother.
  { intros c Hca Hcb. unfold len'.
    destruct (N.eq_dec c a); [congruence|].
    destruct (N.eq_dec c b); congruence. }
  assert (Permutation (map fst table) (nodup N.eq_dec phrase)) as Hkeys.
  { unfold table. rewrite paths_keys, Hp. apply tally_keys_nodup. }
  (* the exchanged lengths satisfy Kraft's inequality as well *)
  assert (kraft_sum (height t) (map len' (nodup N.eq_dec phrase))
          <= 2 ^ height t) as HK.
  { assert (kraft_sum (height t) (map len (nodup N.eq_dec phrase))
            = 2 ^ height t) as HK0.
    { rewrite <- (kraft_sum_perm _ _ _ (Permutation_map len Hkeys)).
      unfold len. rewrite code_len_keys by (unfold table; now rewrite paths_keys).
      unfold table. rewrite paths_kraft by (simpl; lia).
      simpl. now rewrite Nat.sub_0_r. }
    unfold kraft_sum in *. rewrite map_map in *.
    pose proof (list_sum_exchange
                  (fun c => 2 ^ (height t - len c))
                  (fun c => 2 ^ (height t - len' c))
                  a b (nodup N.eq_dec phrase) Hab) as Hex.
    simpl in Hex. rewrite Ha', Hb' in Hex.
    specialize (Hex ltac:(intros c Hca Hcb; now rewrite Hother)).
    pose proof (proj1 (NoDup_count_occ' N.eq_dec (nodup N.eq_dec phrase))
                  (NoDup_nodup N.eq_dec phrase)) as Hone.
    rewrite (Hone a), (Hone b) in Hex;
      [unfold char in *;
       generalize dependent (2 ^ (height t - len a));
       generalize dependent (2 ^ (height t - len b)); intros; lia
      | apply nodup_In; exact Hb
       | apply nodup_In, (count_occ_In N.eq_dec); lia ]. }
  (* so the script's size is at most the size with the exchanged lengths *)
  assert (hcost (length (tally phrase)) (rev (map snd (tally phrase)))
          <= list_sum (map len' phrase)) as Hopt.
  { apply (hcost_tally_le phrase len' (height t)); [|exact HK].
    intros c _. unfold len'.
    destruct (N.eq_dec c a); [apply code_len_le_height|].
    destruct (N.eq_dec c b); apply code_len_le_height. }
  assert (hcost (length (tally phrase)) (rev (map snd (tally phrase)))
          = list_sum (map len phrase)) as Hsize.
  { pose proof (new_size_cost phrase Hne) as Hs.
    unfold new_size in Hs. rewrite Hcode in Hs. simpl in Hs.
    rewrite size_of_coded_sum, (tally_weighted (code_len (paths t []))) in Hs.
    - now injection Hs as <-.
    - intros c Hc. rewrite dict_get_None, paths_keys.
      intros H. apply H, (Permutation_in _ (Permutation_sym Hp)), Hc. }
  pose proof (list_sum_exchange len len' a b phrase Hab Hother) as Hex.
  rewrite Ha', Hb' in Hex. rewrite Hsize in Hopt.
  fold len in Hgt.
  exact (exchange_gain _ _ _ _ _ _ Hgt Hcount Hopt Hex).
Qed.

Lemma frequent_symbols_get_short_codes_witness :
  exists table,
    huffman_code (lit "aaabbc") = Returned table /\
    code_len table 97%N <= code_len table 99%N.
Proof.
  apply (frequent_symbols_get_short_codes (lit "aaabbc") 97%N 99%N).
  - simpl. tauto.
  - vm_compute. lia.
Defined.

(** ** More on the decoder *)

Lemma decodable_table_aaabbc : decodable table_aaabbc.
Proof.
  destruct (code_table_prefix_free (lit "aaabbc"))
    as (table & Hc & Hnd & _ & Hpf & Hne); [discriminate|].
  assert (table = table_aaabbc) as ->
    by (vm_compute in Hc; injection Hc as <-; reflexivity).
  split; [exact Hnd|]. split; [exact Hpf|].
  apply Hne. vm_compute. lia.
Qed.

Lemma decode_loop_codes table :
  decodable table ->
  forall symbols codes,
    Forall2 (fun c p => In (c, p) table) symbols codes ->
    forall text,
      decode_loop table text [] (concat codes) = (text ++ symbols, []).
Proof.
  intros Hdec symbols codes HF.
  induction HF as [|c p symbols codes Hin HF IH]; intros text; simpl.
  - now rewrite app_nil_r.
  - rewrite (decode_loop_code table c Hdec p [] text (concat codes) Hin).
    + rewrite IH, <- app_assoc. reflexivity.
    + destruct Hdec as (_ & _ & Hne). now apply (Hne c).
Qed.

(** X11.  With a table that has one entry for each key, no empty code and
    no code that is a prefix of the code of another key, [decode] inverts
    the concatenation of codes: for every sequence of symbols and their
    codes it returns the symbols, and nothing is left pending. *)
Theorem decode_inverts_concatenation (table : dict str) (symbols : str)
    (codes : list str) :
  decodable table ->
  Forall2 (fun c p => In (c, p) table) symbols codes ->
  decode table (concat codes) = symbols /\
  decode_pending table (concat codes) = [].
Proof.
  intros Hdec HF. unfold decode, decode_pending.
  rewrite (decode_loop_codes table Hdec symbols codes HF). now split.
Qed.

Lemma decode_inverts_concatenation_witness :
  decode table_aaabbc (concat [lit "00"; lit "1"; lit "01"]) = lit "cab" /\
  decode_pending table_aaabbc (concat [lit "00"; lit "1"; lit "01"]) = [].
Proof.
  apply (decode_inverts_concatenation table_aaabbc (lit "cab")
           [lit "00"; lit "1"; lit "01"]).
  - exact decodable_table_aaabbc.
  - repeat constructor; simpl; tauto.
Defined.

Lemma decode_loop_bounds d s :
  forall text temp,
    (forall c, In c (fst (decode_loop d text temp s)) ->
               In c text \/ In c (map fst d)) /\
    length (fst (decode_loop d text temp s))
    + length (snd (decode_loop d text temp s))
    <= length text + length temp + length s.
Proof.
  induction s as [|b s IH]; intros text temp; simpl.
  - split; [tauto | lia].
  - destruct (find_code d (temp ++ [b])) as [h|] eqn:E.
    + destruct (IH (text ++ [h]) []) as [Hin Hlen]. split.
      * intros c Hc. apply Hin in Hc. destruct Hc as [Hc|Hc]; [|now right].
        apply in_app_or in Hc. destruct Hc as [Hc|[<-|[]]]; [now left|].
        right. apply find_code_Some in E.
        now apply (in_map fst) in E.
      * rewrite length_app in Hlen. simpl in Hlen. lia.
    + destruct (IH text (temp ++ [b])) as [Hin Hlen]. split; [exact Hin|].
      rewrite length_app in Hlen. simpl in Hlen. lia.
Qed.

(** X12.  [decode] returns only symbols that are keys of the table, and
    the symbols returned and the bits left pending together are no more
    than the bits of the input: at most one symbol for each bit. *)
Theorem decode_emits_table_keys (huffman_dict : dict str) (bits : str) :
  (forall c, In c (decode huffman_dict bits) ->
             In c (map fst huffman_dict)) /\
  length (decode huffman_dict bits)
  + length (decode_pending huffman_dict bits) <= length bits.
Proof.
  destruct (decode_loop_bounds huffman_dict bits [] []) as [Hin Hlen].
  split.
  - intros c Hc. destruct (Hin c Hc) as [[]|H]; exact H.
  - exact Hlen.
Qed.

Lemma find_code_nonempty_codes d temp :
  temp <> [] -> find_code (nonempty_codes d) temp = find_code d temp.
Proof.
  intros Hne. induction d as [|[h_char h_code] d IH]; simpl.
  - reflexivity.
  - destruct h_code as [|b code]; simpl.
    + destruct temp; [congruence | exact IH].
    + now rewrite IH.
Qed.

Lemma decode_loop_nonempty_codes d s :
  forall text temp,
    decode_loop (nonempty_codes d) text temp s = decode_loop d text temp s.
Proof.
  induction s as [|b s IH]; intros text temp; simpl.
  - reflexivity.
  - rewrite find_code_nonempty_codes by (destruct temp; discriminate).
    destruct (find_code d (temp ++ [b])); apply IH.
Qed.

Lemma decode_loop_empty_table s :
  forall text temp, decode_loop [] text temp s = (text, temp ++ s).
Proof.
  induction s as [|b s IH]; intros text temp; simpl.
  - now rewrite app_nil_r.
  - now rewrite IH, <- app_assoc.
Qed.

(** X13.  An entry whose code is the empty string is never matched by
    [decode]: the result is the same without these entries, and it is the
    empty string when every code of the table is empty. *)
Theorem decode_ignores_empty_codes (huffman_dict : dict str) (bits : str) :
  decode huffman_dict bits = decode (nonempty_codes huffman_dict) bits /\
  ((forall c p, In (c, p) huffman_dict -> p = []) ->
   decode huffman_dict bits = []).
Proof.
  unfold decode. rewrite decode_loop_nonempty_codes. split; [reflexivity|].
  intros Hall. rewrite <- decode_loop_nonempty_codes.
  assert (nonempty_codes huffman_dict = []) as ->.
  { unfold nonempty_codes.
    induction huffman_dict as [|[c p] d IH]; simpl; [reflexivity|].
    rewrite (Hall c p) by now left. apply IH.
    intros c' p' H. apply (Hall c' p'). now right. }
  now rewrite decode_loop_empty_table.
Qed.

Lemma decode_loop_text d s :
  forall text temp,
    decode_loop d text temp s =
    (text ++ fst (decode_loop d [] temp s), snd (decode_loop d [] temp s)).
Proof.
  induction s as [|b s IH]; intros text temp; simpl.
  - now rewrite app_nil_r.
  - destruct (find_code d (temp ++ [b])) as [h|].
    + rewrite (IH (text ++ [h])), (IH ([] ++ [h])). simpl.
      now rewrite <- app_assoc.
    + apply IH.
Qed.

(** X14.  [decode] composes over concatenation at code boundaries: when
    nothing is pending after the first bitstring, decoding the two
    bitstrings one after the other gives the two results one after the
    other. *)
Theorem decode_app (huffman_dict : dict str) (bits1 bits2 : str) :
  decode_pending huffman_dict bits1 = [] ->
  decode huffman_dict (bits1 ++ bits2) =
  decode huffman_dict bits1 ++ decode huffman_dict bits2 /\
  decode_pending huffman_dict (bits1 ++ bits2) =
  decode_pending huffman_dict bits2.
Proof.
  unfold decode, decode_pending. intros Hp.
  rewrite decode_loop_app, Hp, decode_loop_text. now split.
Qed.

Lemma decode_app_witness :
  decode table_aaabbc (lit "100" ++ lit "01") =
  decode table_aaabbc (lit "100") ++ decode table_aaabbc (lit "01") /\
  decode_pending table_aaabbc (lit "100" ++ lit "01") =
  decode_pending table_aaabbc (lit "01").
Proof. apply (decode_app table_aaabbc (lit "100") (lit "01")). reflexivity. Defined.

(** ** More on the script's encoder *)

(** X15.  [create_huffman_string] never reads a symbol: its result depends
    on the shape of the tree only, and it starts with [bin_string]. *)
Theorem create_huffman_string_reads_no_symbol (t : node) (bin_string : str) :
  create_huffman_string t bin_string =
  create_huffman_string (erase t) bin_string /\
  is_prefix bin_string (create_huffman_string t bin_string).
Proof.
  revert bin_string. induction t as [c|l IHl r IHr]; intros b; simpl.
  - split; [reflexivity|]. exists []. now rewrite app_nil_r.
  - destruct (IHl (b ++ zero)) as [El _]. rewrite <- El.
    destruct (IHr ((b ++ create_huffman_string l (b ++ zero)) ++ one))
      as [Er _]. rewrite <- Er.
    split; [reflexivity|]. eexists. rewrite <- app_assoc. reflexivity.
Qed.

Lemma create_huffman_string_arith (u v n n1 sr : nat) :
  1 <= u -> 1 <= v ->
  u * (2 * n + 3) <= n1 + 2 ->
  v * (2 * n1 + 3) <= sr + n1 + 2 ->
  2 * (u * v) * (2 * n + 1) <= n1 + sr + n + 1.
Proof.
  intros Hu Hv H1 H2.
  assert (v * (2 * (u * (2 * n + 3))) <= v * (2 * (n1 + 2))) as H3
    by (apply Nat.mul_le_mono_l; lia).
  assert (v * 1 <= v * u) as H4 by (apply Nat.mul_le_mono_l; lia).
  replace (v * (2 * (u * (2 * n + 3))))
    with (2 * (u * v) * (2 * n + 1) + 4 * (v * u)) in H3 by ring.
  rewrite !Nat.mul_add_distr_l in H2, H3. lia.
Qed.

Lemma create_huffman_string_length t :
  forall b,
    2 ^ inner_nodes t * (2 * length b + 1)
    <= length (create_huffman_string t b) + length b + 1.
Proof.
  induction t as [c|l IHl r IHr]; intros b; simpl.
  - lia.
  - specialize (IHl (b ++ zero)).
    specialize (IHr ((b ++ create_huffman_string l (b ++ zero)) ++ one)).
    rewrite !length_app in *. simpl in *.
    rewrite Nat.add_0_r, Nat.pow_add_r.
    pose proof (pow2_pos (inner_nodes l)).
    pose proof (pow2_pos (inner_nodes r)).
    pose proof (create_huffman_string_arith
                  (2 ^ inner_nodes l) (2 ^ inner_nodes r) (length b)
                  (length b + length (create_huffman_string l (b ++ zero)))
                  (length (create_huffman_string r
                     ((b ++ create_huffman_string l (b ++ zero)) ++ one))))
      as Har.
    lia.
Qed.

(** X16.  The string that the script builds as the encoded phrase has at
    least [2 ^ (N - 1) - 1] characters for a phrase with N distinct
    symbols, however short the phrase is. *)
Theorem encoded_string_is_exponential (phrase : str) :
  phrase <> [] ->
  exists bits,
    encoded_string phrase = Returned bits /\
    2 ^ (length (nodup N.eq_dec phrase) - 1) <= length bits + 1.
Proof.
  intros Hne. destruct (node_tree_spec phrase Hne) as (t & Ht & Hp & _).
  unfold encoded_string. rewrite Ht. simpl. eexists. split; [reflexivity|].
  pose proof (create_huffman_string_length t []) as Hlen. simpl in Hlen.
  pose proof (inner_nodes_leaves t) as Hin.
  pose proof (Permutation_length Hp) as H1.
  pose proof (Permutation_length (tally_keys_nodup phrase)) as H2.
  unfold char, str in *.
  replace (length (nodup N.eq_dec phrase) - 1) with (inner_nodes t) by lia.
  lia.
Qed.

Lemma encoded_string_is_exponential_witness :
  exists bits,
    encoded_string (lit "aaabbc") = Returned bits /\
    2 ^ (length (nodup N.eq_dec (lit "aaabbc")) - 1) <= length bits + 1.
Proof. apply (encoded_string_is_exponential (lit "aaabbc")). discriminate. Defined.

(** ** The string form of a tree *)

Lemma join_app sep l1 l2 :
  l1 <> [] -> l2 <> [] ->
  join sep (l1 ++ l2) = join sep l1 ++ sep ++ join sep l2.
Proof.
  intros H1 H2. induction l1 as [|x l1 IH]; [congruence|].
  destruct l1 as [|y l1].
  - simpl. destruct l2; [congruence | reflexivity].
  - change (join sep ((x :: y :: l1) ++ l2))
      with (x ++ sep ++ join sep ((y :: l1) ++ l2)).
    rewrite IH by discriminate.
    change (join sep (x :: y :: l1)) with (x ++ sep ++ join sep (y :: l1)).
    now rewrite <- !app_assoc.
Qed.

Lemma leaves_nonempty t : leaves t <> [].
Proof.
  pose proof (inner_nodes_leaves t). destruct (leaves t); [discriminate|].
  discriminate.
Qed.

(** X17.  [NodeTree.__str__] lists the symbols at the leaves from left to
    right, joined by underscores; it has one underscore for each
    [NodeTree], and the nesting of the tree does not show in it. *)
Theorem node_str_joins_leaves (t : node) :
  node_str t = join (lit "_") (map (fun c => [c]) (leaves t)) /\
  length (node_str t) = length (leaves t) + inner_nodes t /\
  forall t1 t2 t3,
    node_str (NodeTree (NodeTree t1 t2) t3) =
    node_str (NodeTree t1 (NodeTree t2 t3)).
Proof.
  split; [|split].
  - induction t as [c|l IHl r IHr]; simpl.
    + reflexivity.
    + rewrite map_app, join_app, <- IHl, <- IHr; [reflexivity | |];
        intros E; apply map_eq_nil in E; now apply leaves_nonempty in E.
  - induction t as [c|l IHl r IHr]; simpl.
    + reflexivity.
    + rewrite !length_app. simpl. rewrite IHl, IHr. lia.
  - intros t1 t2 t3. simpl. now rewrite <- !app_assoc.
Qed.

(** ** Trees with a symbol at several leaves *)

Section DictUpdate.
Context {V : Type}.
Implicit Types (d other : dict V) (k : char).

Lemma dict_get_app d1 d2 k :
  dict_get (d1 ++ d2) k =
  match dict_get d1 k with
  | Some v => Some v
  | None => dict_get d2 k
  end.
Proof.
  induction d1 as [|[k' v'] d1 IH]; simpl.
  - reflexivity.
  - now destruct (N.eqb k' k).
Qed.

Lemma dict_get_update d other k :
  dict_get (dict_update d other) k =
  match dict_get (rev other) k with
  | Some v => Some v
  | None => dict_get d k
  end.
Proof.
  unfold dict_update. revert d.
  induction other as [|[k' v'] other IH]; intros d; simpl.
  - reflexivity.
  - rewrite IH, dict_get_app, dict_get_set. simpl.
    destruct (dict_get (rev other) k); [reflexivity|].
    now destruct (N.eqb k' k).
Qed.

Lemma dict_set_NoDup d k v :
  NoDup (map fst d) -> NoDup (map fst (dict_set d k v)).
Proof.
  intros Hnd. destruct (dict_get d k) as [v0|] eqn:E.
  - now rewrite (keys_dict_set_old _ _ _ _ E).
  - rewrite (keys_dict_set_new _ _ _ E), map_app. simpl.
    apply Permutation_NoDup with (l := k :: map fst d).
    + apply Permutation_cons_append.
    + constructor; [now apply dict_get_None | exact Hnd].
Qed.

Lemma dict_update_NoDup d other :
  NoDup (map fst d) -> NoDup (map fst (dict_update d other)).
Proof.
  unfold dict_update. revert d.
  induction other as [|[k v] other IH]; intros d Hnd; simpl.
  - exact Hnd.
  - apply IH. now apply dict_set_NoDup.
Qed.

Lemma dict_get_rev d k :
  NoDup (map fst d) -> dict_get (rev d) k = dict_get d k.
Proof.
  intros Hnd. destruct (dict_get d k) as [v|] eqn:E.
  - apply In_dict_get.
    + rewrite map_rev. now apply NoDup_rev.
    + apply in_rev. rewrite rev_involutive. now apply dict_get_In.
  - apply dict_get_None. apply dict_get_None in E.
    rewrite map_rev. intros H. apply E. now apply in_rev.
Qed.

End DictUpdate.

Lemma huffman_encode_NoDup t pre : NoDup (map fst (huffman_encode t pre)).
Proof.
  destruct t as [c|l r]; simpl.
  - constructor; [tauto | constructor].
  - apply dict_update_NoDup, dict_update_NoDup. constructor.
Qed.

Lemma huffman_encode_get t :
  forall pre c,
    dict_get (huffman_encode t pre) c = dict_get (rev (paths t pre)) c.
Proof.
  induction t as [c'|l IHl r IHr]; intros pre c; simpl.
  - reflexivity.
  - rewrite !dict_get_update, rev_app_distr, dict_get_app.
    rewrite !dict_get_rev by apply huffman_encode_NoDup.
    rewrite IHl, IHr. simpl.
    now destruct (dict_get (rev (paths r (pre ++ one))) c),
      (dict_get (rev (paths l (pre ++ zero))) c).
Qed.

(** X18.  For every tree, also one that holds a symbol at several leaves,
    the table of [huffman_encode] has exactly one entry for each symbol at
    a leaf, and the code of a symbol is the path to the rightmost leaf that
    holds it (the later [update] overwrites the earlier one). *)
Theorem huffman_encode_rightmost_leaf (t : node) (bin_string : str) :
  NoDup (map fst (huffman_encode t bin_string)) /\
  (forall c, In c (map fst (huffman_encode t bin_string)) <->
             In c (leaves t)) /\
  (forall c, dict_get (huffman_encode t bin_string) c =
             dict_get (rev (paths t bin_string)) c).
Proof.
  split; [apply huffman_encode_NoDup|]. split; [|apply huffman_encode_get].
  intros c.
  pose proof (dict_get_None (huffman_encode t bin_string) c) as H1.
  pose proof (dict_get_None (rev (paths t bin_string)) c) as H2.
  rewrite huffman_encode_get in H1.
  rewrite map_rev, paths_keys in H2.
  destruct (in_dec N.eq_dec c (map fst (huffman_encode t bin_string)))
    as [I|I];
    destruct (in_dec N.eq_dec c (leaves t)) as [J|J]; try tauto.
  - exfalso. rewrite <- in_rev in H2. tauto.
  - exfalso. rewrite <- in_rev in H2. tauto.
Qed.

(** ** The script as a whole *)

